(** * Scanned-PDF OCR converter: progress store and chunked OCR pipeline

    Shallow embedding of the two route handlers of the application and of
    the state of its page:
    - [Progress]: the in-memory progress store behind [/api/progress]
      (its [GET] and [POST] handlers and the one-hour cleanup timers);
    - [Convert]: the conversion handler (rasterization fallback chain,
      chunked OCR with retries, assembly of the markdown document);
    - [Home]: the page (selection of files, processing in batches).

    JavaScript strings are embedded as [string] (one [ascii] per code unit),
    arrays as [list], the [Map] of the progress store as a [gmap], thrown
    exceptions as the [Throw] case of [result]. *)

From Stdlib Require Import Ascii String.
From stdpp Require Import gmap strings list pretty sorting.


(** ** Results of fallible JavaScript code *)

(** A thrown value: an [Error] object with its message, or any other value
    with its [String(...)] rendering. *)
Inductive thrown : Type :=
| ErrorObject (message : string)
| NonError (rendering : string).

(** A computation either returns a value or throws. *)
Inductive result (A : Type) : Type :=
| OK (value : A)
| Throw (e : thrown).
Arguments OK {A} value.
Arguments Throw {A} e.

(** ** JavaScript string and array primitives used by the handlers *)

Module JS.

(** The line feed, written ["\n"] in the source. *)
Definition LF : ascii := "010"%char.
Definition nl : string := String LF EmptyString.

(** White space and line terminators removed by [String.prototype.trim]
    (the code units below 256). *)
Definition isWhiteSpace (c : ascii) : bool :=
  let n := nat_of_ascii c in
  (n =? 9) || (n =? 10) || (n =? 11) || (n =? 12) || (n =? 13)
  || (n =? 32) || (n =? 160).

Fixpoint trimStart (s : string) : string :=
  match s with
  | EmptyString => EmptyString
  | String c s' => if isWhiteSpace c then trimStart s' else s
  end.

Fixpoint trimEnd (s : string) : string :=
  match s with
  | EmptyString => EmptyString
  | String c s' =>
      match trimEnd s' with
      | EmptyString => if isWhiteSpace c then EmptyString else String c EmptyString
      | r => String c r
      end
  end.

(** [s.trim()] *)
Definition trim (s : string) : string := trimEnd (trimStart s).

(** [s.startsWith(p)] *)
Definition startsWith (s p : string) : bool := String.prefix p s.

(** [s.endsWith(p)] *)
Definition endsWith (s p : string) : bool :=
  (String.length p <=? String.length s)
  && String.eqb (String.substring (String.length s - String.length p) (String.length p) s) p.

(** [s.split(sep)] for a one-character separator: never the empty array. *)
Fixpoint split (sep : ascii) (s : string) : list string :=
  match s with
  | EmptyString => [EmptyString]
  | String c s' =>
      if Ascii.eqb c sep then EmptyString :: split sep s'
      else match split sep s' with
           | [] => [String c EmptyString]
           | l :: ls => String c l :: ls
           end
  end.

(** [s.includes(c)] for a one-character [c]. *)
Fixpoint includes (s : string) (c : ascii) : bool :=
  match s with
  | EmptyString => false
  | String c' s' => Ascii.eqb c' c || includes s' c
  end.

(** [a.join(sep)] on an array of strings. *)
Definition join (sep : string) (a : list string) : string := String.concat sep a.

(** [a.slice(-n)]: the last [n] elements, the whole array when it is shorter. *)
Definition sliceLast {A} (n : nat) (a : list A) : list A := drop (length a - n) a.

(** Truthiness of a string, as tested by [filter(Boolean)] and [!s]. *)
Definition truthy (s : string) : Prop := s ≠ "".

#[global] Instance truthy_dec s : Decision (truthy s).
Proof. unfold truthy. apply _. Defined.

(** [a.sort(cmp)]: a stable sort driven by the sign of [cmp x y]; an element
    is placed after every element that does not compare greater than it. *)
Section Sort.
Context {A : Type} (cmp : A → A → Z).

Fixpoint sortInsert (x : A) (a : list A) : list A :=
  match a with
  | [] => [x]
  | y :: a' => if (cmp x y <? 0)%Z then x :: y :: a' else y :: sortInsert x a'
  end.

Definition sort (a : list A) : list A := foldl (λ acc x, sortInsert x acc) [] a.

(** [y] need not come after [x]: the comparator does not put [x] first. *)
Definition notAfter (y x : A) : Prop := (cmp x y <? 0)%Z = false.
End Sort.

End JS.

(** ** The progress store: [/api/progress] *)

Module Progress.

(** The value type of [progressStore]. The object spread of [POST] copies
    every key of the update, hence also its [log] key, into the record. *)
Record progress : Type := {
  totalPages : nat;
  processedPages : nat;
  currentChunk : nat;
  totalChunks : nat;
  status : string;
  logs : list string;
  log : option string
}.

(** The [update] object sent by [updateProgress]: every key is optional. *)
Record update : Type := {
  u_totalPages : option nat;
  u_processedPages : option nat;
  u_currentChunk : option nat;
  u_totalChunks : option nat;
  u_status : option string;
  u_log : option string
}.

(** Body of a [POST]: unparsable, or an object with optional [fileId] and
    [update] keys. *)
Inductive request : Type :=
| Malformed
| Json (fileId : option string) (upd : option update).

Inductive payload : Type :=
| PError (error : string)
| PSuccess
| PProgress (p : progress).

Record response : Type := { body : payload; code : nat }.

(** The process: the clock in milliseconds, the store, and the pending
    [setTimeout] callbacks, each with its due time and the id it deletes. *)
Record world : Type := {
  now : N;
  progressStore : gmap string progress;
  timers : list (N * string)
}.

Definition init : world := {| now := 0; progressStore := ∅; timers := [] |}.

(** [!fileId]: the key is absent or the empty string. *)
Definition missing (fileId : option string) : bool :=
  match fileId with
  | None => true
  | Some s => String.eqb s ""
  end.

Definition GET (fileId : option string) (w : world) : response :=
  match fileId with
  | Some id =>
      if missing fileId then {| body := PError "fileId required"; code := 400 |}
      else match progressStore w !! id with
           | None => {| body := PError "Progress not found"; code := 404 |}
           | Some p => {| body := PProgress p; code := 200 |}
           end
  | None => {| body := PError "fileId required"; code := 400 |}
  end.

Definition defaults : progress :=
  {| totalPages := 0; processedPages := 0; currentChunk := 0; totalChunks := 0;
     status := "starting"; logs := []; log := None |}.

Definition TTL : N := 3600000.
Definition LOG_CAP : nat := 50.

(** [{...existing, ...update,
      logs: [...existing.logs, update.log || ''].filter(Boolean).slice(-50)}] *)
Definition merge (existing : progress) (u : update) : progress :=
  {| totalPages := default (totalPages existing) (u_totalPages u);
     processedPages := default (processedPages existing) (u_processedPages u);
     currentChunk := default (currentChunk existing) (u_currentChunk u);
     totalChunks := default (totalChunks existing) (u_totalChunks u);
     status := default (status existing) (u_status u);
     logs := JS.sliceLast LOG_CAP
               (filter JS.truthy (logs existing ++ [default "" (u_log u)]));
     log := match u_log u with Some l => Some l | None => log existing end |}.

Definition POST (req : request) (w : world) : response * world :=
  match req with
  | Malformed => ({| body := PError "Invalid request"; code := 400 |}, w)
  | Json fileId upd =>
      match fileId, upd with
      | Some id, Some u =>
          if missing fileId
          then ({| body := PError "fileId and update required"; code := 400 |}, w)
          else
            let existing := default defaults (progressStore w !! id) in
            let updated := merge existing u in
            ({| body := PSuccess; code := 200 |},
             {| now := now w;
                progressStore := <[id := updated]> (progressStore w);
                timers := timers w ++ [((now w + TTL)%N, id)] |})
      | _, _ => ({| body := PError "fileId and update required"; code := 400 |}, w)
      end
  end.

(** The event loop reaching time [t]: every timer due by then runs its
    callback [progressStore.delete(fileId)] and is discarded. *)
Definition due (t : N) (tm : N * string) : Prop := (tm.1 ≤ t)%N.

#[global] Instance due_dec t tm : Decision (due t tm).
Proof. unfold due. apply _. Defined.

Definition advance (t : N) (w : world) : world :=
  {| now := N.max (now w) t;
     progressStore :=
       foldl (λ st tm, delete tm.2 st) (progressStore w) (filter (due t) (timers w));
     timers := filter (λ tm, ¬ due t tm) (timers w) |}.

(** What can happen to the process: a request is served or time passes. *)
Inductive step : Type :=
| Post (req : request)
| Tick (t : N).

Definition exec (w : world) (s : step) : world :=
  match s with
  | Post req => (POST req w).2
  | Tick t => advance t w
  end.

Definition run (ss : list step) (w : world) : world := foldl exec w ss.

(** Consecutive updates posted for one job id. *)
Definition posts (id : string) (us : list update) (w : world) : world :=
  foldl (λ w u, (POST (Json (Some id) (Some u)) w).2) w us.

(** The log line an update contributes: [update.log || '']. *)
Definition line (u : update) : string := default "" (u_log u).

(** Every record of the store holds non-empty log lines, at most the cap. *)
Definition store_ok (w : world) : Prop :=
  ∀ id p, progressStore w !! id = Some p →
    Forall JS.truthy (logs p) ∧ length (logs p) ≤ LOG_CAP.

End Progress.

(** ** The conversion handler: rasterization, chunked OCR, assembly *)

Module Convert.

Definition CHUNK_SIZE : nat := 2.
Definition MAX_RETRIES : nat := 2.

(** ["\n\n---\n\n"], used between pages of a chunk and between chunks. *)
Definition SEPARATOR : string := JS.nl +:+ JS.nl +:+ "---" +:+ JS.nl +:+ JS.nl.

Definition FENCE : string := "```".

(** The code-fence cleanup applied to the trimmed response text:
    [[
      if (text.startsWith("```")) {
        const lines = text.split("\n");
        lines.shift();
        if (lines[lines.length - 1].trim() === "```") lines.pop();
        text = lines.join("\n");
      }
    ]]
    Reading index [-1] of the empty array yields [undefined], and calling
    [trim] on it throws a [TypeError]. *)
Definition cleanCodeBlock (text : string) : result string :=
  if JS.startsWith text FENCE then
    let lines := JS.split JS.LF text in
    let lines := tail lines in
    match last lines with
    | None => Throw (ErrorObject "Cannot read properties of undefined (reading 'trim')")
    | Some l =>
        let lines := if String.eqb (JS.trim l) FENCE then removelast lines else lines in
        OK (JS.join JS.nl lines)
    end
  else OK text.

Record pageResult : Type := { pageNumber : nat; text : string }.

(** Outcome of one [convert(i)] call of pdf2pic: the call, or the write of
    the image it returned, throws; it resolves without [base64] data; or it
    resolves with data and the image is written. *)
Inductive pdf2picResult : Type := P2PThrow | P2PEmpty | P2PData.

(** Outcome of one [execAsync] of a command-line rasterizer: the files it
    left in the images directory and whether the command succeeded. *)
Record execResult : Type := { written : list string; succeeded : bool }.

(** One conversion request together with the behaviour of everything outside
    the handler during that request. *)
Record job : Type := {
  file : option string;                  (* name of the uploaded file *)
  providedFileId : option string;
  generatedFileId : string;              (* Date.now() and Math.random() *)
  apiKey : option string;                (* process.env.GEMINI_API_KEY *)
  cwd : string;
  joinPath : string → string → string;   (* path.join of a directory and a name *)
  staleImages : list string;             (* temp/images before the request *)
  unlinkFails : string → bool;           (* unlinkSync of that stale image throws *)
  (* mkdirSync, writeFileSync of the upload, readdirSync of the images
     directory, PDFDocument.load and getPageCount: the page count, or the
     value that the first of them to fail throws *)
  pdfLoad : result nat;
  pdf2picLoad : bool;                    (* require("pdf2pic"), fromPath *)
  pdf2pic : nat → pdf2picResult;         (* convert(i), i from 1 *)
  magick : execResult;
  convert : execResult;
  gm : execResult;
  puppeteerLaunch : bool;                (* launch and newPage *)
  puppeteerPage : nat → bool;            (* steps 1-4 for page index i, from 0 *)
  browserClose : bool;
  naturalSort : string → string → Z;     (* localeCompare, numeric *)
  (* readFileSync, generateContent and response.text() for an image path,
     a page number and the attempt of the page's chunk *)
  generateContent : string → nat → nat → result string;
  (* order in which the page workers of a chunk settle: chunk number,
     attempt, then the indices within the chunk *)
  completion : nat → nat → list nat;
  (* marked, the browser's page.pdf and reading the output file back *)
  render : string → result string
}.

Definition fileId (j : job) : string :=
  match providedFileId j with
  | Some id => if String.eqb id "" then generatedFileId j else id
  | None => generatedFileId j
  end.

Definition imagesDir (j : job) : string :=
  joinPath j (joinPath j (cwd j) "temp") "images".

(** *** Rasterization fallback chain *)

(** State of the chain: the [images] array, the [conversionSuccess] flag and
    the file names present in the images directory. *)
Record raster : Type := {
  images : list string;
  conversionSuccess : bool;
  dir : list string
}.

(** [fs.writeFileSync] of a file name into the directory. *)
Definition writeFile (d : list string) (name : string) : list string :=
  if decide (name ∈ d) then d else d ++ [name].

(** The files of this job: [f.startsWith(fileId) && f.endsWith(".png")]. *)
Definition ownImage (j : job) (f : string) : bool :=
  JS.startsWith f (fileId j) && JS.endsWith f ".png".

(** Pages of method 1, until a call throws; the flag tells whether the loop
    ran to its end. *)
Fixpoint pdf2picPages (j : job) (pages : list nat) (st : raster) : raster * bool :=
  match pages with
  | [] => (st, true)
  | i :: pages' =>
      match pdf2pic j i with
      | P2PThrow => (st, false)
      | P2PEmpty => pdf2picPages j pages' st
      | P2PData =>
          let name := fileId j +:+ "." +:+ pretty i +:+ ".png" in
          pdf2picPages j pages'
            {| images := images st ++ [joinPath j (imagesDir j) name];
               conversionSuccess := conversionSuccess st;
               dir := writeFile (dir st) name |}
      end
  end.

(** Method 1: pdf2pic. *)
Definition method1 (j : job) (pageCount : nat) (st : raster) : raster :=
  if pdf2picLoad j then
    let '(st', finished) := pdf2picPages j (seq 1 pageCount) st in
    if finished && (length (images st') =? pageCount)
    then {| images := images st'; conversionSuccess := true; dir := dir st' |}
    else st'
  else st.

(** Methods 2, 3 and 4: a command-line rasterizer, then the directory is
    listed; the method is accepted when the listing is not empty. *)
Definition cliMethod (j : job) (r : execResult) (st : raster) : raster :=
  if conversionSuccess st then st
  else
    let d := foldl writeFile (dir st) (written r) in
    if succeeded r then
      let imageFiles :=
        map (joinPath j (imagesDir j))
            (JS.sort (naturalSort j) (filter (λ f, ownImage j f) d)) in
      if 0 <? length imageFiles
      then {| images := imageFiles; conversionSuccess := true; dir := d |}
      else {| images := []; conversionSuccess := false; dir := d |}
    else {| images := []; conversionSuccess := false; dir := d |}.

(** Screenshots of method 5, one single-page document at a time, until a
    step throws. *)
Fixpoint puppeteerPages (j : job) (indices : list nat) (st : raster) : raster * bool :=
  match indices with
  | [] => (st, true)
  | i :: indices' =>
      if puppeteerPage j i then
        let name := fileId j +:+ "." +:+ pretty (i + 1) +:+ ".png" in
        puppeteerPages j indices'
          {| images := images st ++ [joinPath j (imagesDir j) name];
             conversionSuccess := conversionSuccess st;
             dir := writeFile (dir st) name |}
      else (st, false)
  end.

(** Method 5: browser screenshots. *)
Definition method5 (j : job) (pageCount : nat) (st : raster) : raster :=
  if conversionSuccess st then st
  else
    let st := {| images := []; conversionSuccess := false; dir := dir st |} in
    if puppeteerLaunch j then
      let '(st', finished) := puppeteerPages j (seq 0 pageCount) st in
      if finished && browserClose j && (length (images st') =? pageCount)
      then {| images := images st'; conversionSuccess := true; dir := dir st' |}
      else st'
    else st.

(** The cleanup before the chain: [unlinkSync] of every image that an
    earlier request left under this file id, inside a [try] whose [catch]
    is empty, so that an image whose deletion throws stays in the
    directory. *)
Definition cleanup (j : job) : list string :=
  filter (λ f, negb (ownImage j f) || unlinkFails j f) (staleImages j).

(** The chain, after the cleanup. *)
Definition rasterize (j : job) (pageCount : nat) : raster :=
  let st := {| images := []; conversionSuccess := false; dir := cleanup j |} in
  let st := method1 j pageCount st in
  let st := cliMethod j (magick j) st in
  let st := cliMethod j (convert j) st in
  let st := cliMethod j (gm j) st in
  method5 j pageCount st.

(** The guard before the failure response:
    [!conversionSuccess || images.length === 0]. *)
Definition conversionFailed (st : raster) : bool :=
  negb (conversionSuccess st) || (length (images st) =? 0).

(** *** Chunked OCR *)

(** [(error instanceof Error ? error : new Error(String(error))).message] *)
Definition asErrorMessage (e : thrown) : string :=
  match e with
  | ErrorObject message => message
  | NonError rendering => rendering
  end.

(** [error instanceof Error ? error.message : "Unknown error"] *)
Definition topLevelMessage (e : thrown) : string :=
  match e with
  | ErrorObject message => message
  | NonError _ => "Unknown error"
  end.

(** The worker of one page: the remote call, then the cleanup of its text. *)
Definition ocrPage (j : job) (imagePath : string) (pageNumber attempt : nat)
  : result pageResult :=
  match generateContent j imagePath pageNumber attempt with
  | Throw e => Throw e
  | OK response =>
      match cleanCodeBlock (JS.trim response) with
      | Throw e => Throw e
      | OK text => OK {| pageNumber := pageNumber; text := text |}
      end
  end.

(** [Promise.all]: it rejects with the first rejection in settling order
    (indices that [order] omits settle afterwards, in index order) and
    otherwise resolves to the values in the order of the promises. *)
Fixpoint firstRejection {A} (order : list nat) (settled : list (result A))
  : option thrown :=
  match order with
  | [] => None
  | i :: order' =>
      match settled !! i with
      | Some (Throw e) => Some e
      | _ => firstRejection order' settled
      end
  end.

Fixpoint fulfilled {A} (settled : list (result A)) : list A :=
  match settled with
  | [] => []
  | OK v :: settled' => v :: fulfilled settled'
  | Throw _ :: settled' => fulfilled settled'
  end.

Definition Promise_all {A} (order : list nat) (settled : list (result A))
  : result (list A) :=
  match firstRejection (order ++ seq 0 (length settled)) settled with
  | Some e => Throw e
  | None => OK (fulfilled settled)
  end.

(** [a.slice(from, to)] for [from <= to]. *)
Definition slice {A} (a : list A) (from to : nat) : list A :=
  take (to - from) (drop from a).

Definition chunkEndOf (imgs : list string) (chunkStart : nat) : nat :=
  Nat.min (chunkStart + CHUNK_SIZE) (length imgs).

Definition chunkNumberOf (chunkStart : nat) : nat := chunkStart / CHUNK_SIZE + 1.

(** One attempt at a chunk: every page worker of the chunk, joined. *)
Definition attemptChunk (j : job) (imgs : list string) (chunkStart attempt : nat)
  : result (list pageResult) :=
  let chunk := slice imgs chunkStart (chunkEndOf imgs chunkStart) in
  Promise_all (completion j (chunkNumberOf chunkStart) attempt)
    (imap (λ index imagePath, ocrPage j imagePath (chunkStart + index + 1) attempt) chunk).

Definition byPageNumber (a b : pageResult) : Z :=
  (Z.of_nat (pageNumber a) - Z.of_nat (pageNumber b))%Z.

(** The body of a chunk:
    [chunkResults.sort((a, b) => a.pageNumber - b.pageNumber)
       .map((result) => result.text).join("\n\n---\n\n")] *)
Definition joinChunk (chunkResults : list pageResult) : string :=
  JS.join SEPARATOR (map text (JS.sort byPageNumber chunkResults)).

(** What the scheduler does that an observer can see, one event per progress
    line or pause. *)
Inductive event : Type :=
| EvChunk (chunkNumber firstPage lastPage : nat)
| EvAttempt (chunkNumber attempt : nat)
| EvCompleted (chunkNumber processedPages : nat)
| EvFailed (chunkNumber attempt : nat) (message : string)
| EvSleep (chunkNumber ms : nat)
| EvExhausted (chunkNumber : nat).

Record chunkState : Type := {
  chunkSuccess : bool;
  chunkMarkdown : string;
  lastError : option string
}.

(** [lastError = error instanceof Error ? error : new Error(String(error))] *)
Definition withLastError (st : chunkState) (e : thrown) : chunkState :=
  {| chunkSuccess := chunkSuccess st;
     chunkMarkdown := chunkMarkdown st;
     lastError := Some (asErrorMessage e) |}.

(** The attempt loop [for (attempt = 1; attempt <= MAX_RETRIES + 1; attempt++)]
    with [remaining] iterations left; a successful attempt leaves the loop. *)
Fixpoint attempts (j : job) (imgs : list string) (chunkStart : nat)
    (remaining attempt : nat) (st : chunkState) : chunkState * list event :=
  match remaining with
  | 0 => (st, [])
  | S remaining' =>
      let chunkNumber := chunkNumberOf chunkStart in
      match attemptChunk j imgs chunkStart attempt with
      | OK chunkResults =>
          ({| chunkSuccess := true;
              chunkMarkdown := joinChunk chunkResults;
              lastError := lastError st |},
           [EvAttempt chunkNumber attempt;
            EvCompleted chunkNumber (chunkEndOf imgs chunkStart)])
      | Throw e =>
          let st' := withLastError st e in
          let pause := if attempt <=? MAX_RETRIES
                       then [EvSleep chunkNumber (1000 * attempt)] else [] in
          let '(st'', evs) := attempts j imgs chunkStart remaining' (attempt + 1) st' in
          (st'', EvAttempt chunkNumber attempt
                 :: EvFailed chunkNumber attempt (asErrorMessage e) :: pause ++ evs)
      end
  end.

(** The variables of a chunk before its first attempt. *)
Definition initialChunkState : chunkState :=
  {| chunkSuccess := false; chunkMarkdown := ""; lastError := None |}.

(** All the attempts at the chunk starting at [chunkStart]. *)
Definition runChunk (j : job) (imgs : list string) (chunkStart : nat)
  : chunkState * list event :=
  attempts j imgs chunkStart (MAX_RETRIES + 1) 1 initialChunkState.

Inductive outcome : Type :=
| Completed (fullMarkdown : string)
| Failed (e : thrown).

(** The chunk loop [for (chunkStart = 0; chunkStart < images.length;
    chunkStart += CHUNK_SIZE)]; [None] when [fuel] iterations do not reach
    the end of the loop. *)
Fixpoint chunkLoop (j : job) (imgs : list string) (fuel chunkStart : nat)
    (fullMarkdown : string) {struct fuel} : option (outcome * list event) :=
  if chunkStart <? length imgs then
    match fuel with
    | 0 => None
    | S fuel' =>
        let chunkEnd := chunkEndOf imgs chunkStart in
        let chunkNumber := chunkNumberOf chunkStart in
        let '(st, evs) := runChunk j imgs chunkStart in
        let evs := EvChunk chunkNumber (chunkStart + 1) chunkEnd :: evs in
        if negb (chunkSuccess st) then
          Some (Failed (ErrorObject
                  ("Failed to process chunk " +:+ pretty chunkNumber +:+ ": "
                   +:+ default "undefined" (lastError st))),
                evs ++ [EvExhausted chunkNumber])
        else
          let fullMarkdown := fullMarkdown +:+ chunkMarkdown st in
          let fullMarkdown :=
            if chunkEnd <? length imgs then fullMarkdown +:+ SEPARATOR
            else fullMarkdown in
          match chunkLoop j imgs fuel' (chunkStart + CHUNK_SIZE) fullMarkdown with
          | None => None
          | Some (o, evs') => Some (o, evs ++ evs')
          end
    end
  else Some (Completed fullMarkdown, []).

(** The OCR phase of a job over its page images. *)
Definition ocrPhase (j : job) (imgs : list string) : option (outcome * list event) :=
  chunkLoop j imgs (length imgs) 0 "".

(** *** The handler *)

Inductive response : Type :=
| Pdf (bytes : string) (filename : string)
| JsonError (code : nat) (error : string) (details : option string).

(** [!apiKey || !apiKey.trim()] *)
Definition apiKeyMissing (j : job) : bool :=
  match apiKey j with
  | None => true
  | Some k => String.eqb k "" || String.eqb (JS.trim k) ""
  end.

(** The handler. Between the check of the key and the rasterization, the
    handler creates the directories, saves the upload, lists the images
    directory for the cleanup and loads the document; what any of these
    steps throws reaches the [catch] of the handler, as [pdfLoad] has it. *)
Definition POST (j : job) : option response :=
  match file j with
  | None => Some (JsonError 400 "No file provided" None)
  | Some name =>
      if apiKeyMissing j
      then Some (JsonError 500 "GEMINI_API_KEY is not configured in .env file." None)
      else
        match pdfLoad j with
        | Throw e => Some (JsonError 500 (topLevelMessage e) None)
        | OK pageCount =>
            let st := rasterize j pageCount in
            if conversionFailed st then
              Some (JsonError 500 "Failed to convert PDF to images."
                      (Some ("Attempted " +:+ pretty pageCount +:+ " pages, got "
                             +:+ pretty (length (images st)) +:+ " images")))
            else
              match ocrPhase j (images st) with
              | None => None
              | Some (Failed e, _) => Some (JsonError 500 (topLevelMessage e) None)
              | Some (Completed fullMarkdown, _) =>
                  match render j fullMarkdown with
                  | Throw e => Some (JsonError 500 (topLevelMessage e) None)
                  | OK bytes => Some (Pdf bytes ("converted_" +:+ name))
                  end
              end
        end
  end.

(** *** Views of a trace *)

Definition isChunkEvent (e : event) : bool :=
  match e with EvChunk _ _ _ => true | _ => false end.

(** The attempts at chunk [c] and the pauses between them. *)
Definition isRetryEvent (c : nat) (e : event) : bool :=
  match e with
  | EvAttempt c' _ | EvSleep c' _ => c' =? c
  | _ => false
  end.

Definition retryView (c : nat) (tr : list event) : list event :=
  filter (λ e, isRetryEvent c e) tr.

(** [k] attempts at chunk [c], numbered from [attempt], each retry preceded
    by a pause of 1000 ms times the number of the attempt that failed. *)
Fixpoint scheduleFrom (c attempt k : nat) : list event :=
  match k with
  | 0 => []
  | S k' =>
      EvAttempt c attempt
      :: match k' with
         | 0 => []
         | S _ => EvSleep c (1000 * attempt) :: scheduleFrom c (attempt + 1) k'
         end
  end.

(** The same request with another behaviour of the OCR service. *)
Definition withOcr (j : job) (g : string → nat → nat → result string)
    (c : nat → nat → list nat) : job :=
  {| file := file j; providedFileId := providedFileId j;
     generatedFileId := generatedFileId j; apiKey := apiKey j; cwd := cwd j;
     joinPath := joinPath j; staleImages := staleImages j;
     unlinkFails := unlinkFails j; pdfLoad := pdfLoad j;
     pdf2picLoad := pdf2picLoad j; pdf2pic := pdf2pic j; magick := magick j;
     convert := convert j; gm := gm j; puppeteerLaunch := puppeteerLaunch j;
     puppeteerPage := puppeteerPage j; browserClose := browserClose j;
     naturalSort := naturalSort j; generateContent := g; completion := c;
     render := render j |}.

(** *** Comparing runs *)

(** Two results that agree up to the value thrown. *)
Definition agree {A} (r1 r2 : result A) : Prop :=
  match r1, r2 with
  | OK a, OK b => a = b
  | Throw _, Throw _ => True
  | _, _ => False
  end.

(** Two outcomes that agree up to the error of a failure. *)
Definition alike (o1 o2 : outcome) : Prop :=
  match o1, o2 with
  | Completed m1, Completed m2 => m1 = m2
  | Failed _, Failed _ => True
  | _, _ => False
  end.

(** No promise of the array is rejected. *)
Definition allFulfilled {A} (settled : list (result A)) : Prop :=
  ∀ i e, settled !! i ≠ Some (Throw e).

Definition pageLe (a b : pageResult) : Prop := pageNumber a ≤ pageNumber b.

(** [r] is what the worker of its page returned on one of the attempts. *)
Definition fromWorker (j : job) (imgs : list string) (r : pageResult) : Prop :=
  ∃ path attempt,
    imgs !! (pageNumber r - 1) = Some path
    ∧ 1 ≤ attempt ≤ MAX_RETRIES + 1
    ∧ ocrPage j path (pageNumber r) attempt = OK r.

End Convert.

(** ** Sample requests *)

Module Samples.
Import Progress Convert.

Definition sampleUpdate (l : string) : update :=
  {| u_totalPages := Some 5; u_processedPages := None; u_currentChunk := None;
     u_totalChunks := Some 3; u_status := Some "Starting OCR processing...";
     u_log := Some l |}.

(** Fifty-two updates with the log lines "line 1" to "line 52". *)
Definition sampleUpdates : list update :=
  map (λ n, sampleUpdate ("line " +:+ pretty n)) (seq 1 52).

Definition compareNames (a b : string) : Z :=
  match String.compare a b with
  | Lt => (-1)%Z
  | Eq => 0%Z
  | Gt => 1%Z
  end.

Definition noExec : execResult := {| written := []; succeeded := false |}.

(** [path.join] of a normalized directory and a name that is a single
    segment, where the separator is the slash. *)
Definition posixJoin (dir name : string) : string := dir +:+ "/" +:+ name.

(** A five-page document rasterized by pdf2pic; [g] is the OCR service. *)
Definition fivePages (g : string → nat → nat → result string) : job :=
  {| file := Some "scan.pdf"; providedFileId := Some "job1"; generatedFileId := "g";
     apiKey := Some "key"; cwd := "/app"; joinPath := posixJoin;
     staleImages := []; unlinkFails := λ _, false;
     pdfLoad := OK 5; pdf2picLoad := true; pdf2pic := λ _, P2PData;
     magick := noExec; convert := noExec; gm := noExec;
     puppeteerLaunch := false; puppeteerPage := λ _, false; browserClose := false;
     naturalSort := compareNames;
     generateContent := g;
     completion := λ _ _, [1; 0];
     render := λ md, OK ("%PDF " +:+ md) |}.

Definition reliable (path : string) (page attempt : nat) : result string :=
  OK ("text " +:+ pretty page).

(** Page 3 is refused once. *)
Definition flaky (path : string) (page attempt : nat) : result string :=
  if (page =? 3) && (attempt <=? 1) then Throw (ErrorObject "quota exceeded")
  else reliable path page attempt.

(** Page 3 is refused every time, with a different message on each attempt. *)
Definition refusing (path : string) (page attempt : nat) : result string :=
  if page =? 3 then Throw (ErrorObject ("quota exceeded, attempt " +:+ pretty attempt))
  else reliable path page attempt.

(** The service answers page 1 with a lone code fence. *)
Definition fenced (path : string) (page attempt : nat) : result string :=
  if page =? 1 then OK "```" else reliable path page attempt.

Definition sampleImages : list string := images (rasterize (fivePages flaky) 5).

Definition sampleMarkdown : string :=
  match ocrPhase (fivePages flaky) sampleImages with
  | Some (Completed md, _) => md
  | _ => ""
  end.

Definition sampleTrace : list event :=
  match ocrPhase (fivePages flaky) sampleImages with
  | Some (_, tr) => tr
  | None => []
  end.

(** A four-page document: pdf2pic is not installed, [magick] leaves three
    images, [convert] would leave four. *)
Definition fourPagesThreeImages : job :=
  {| file := Some "scan.pdf"; providedFileId := Some "job2"; generatedFileId := "g";
     apiKey := Some "key"; cwd := "/app"; joinPath := posixJoin;
     staleImages := []; unlinkFails := λ _, false;
     pdfLoad := OK 4; pdf2picLoad := false; pdf2pic := λ _, P2PThrow;
     magick := {| written := ["job2_00.png"; "job2_01.png"; "job2_02.png"];
                  succeeded := true |};
     convert := {| written := ["job2_00.png"; "job2_01.png"; "job2_02.png";
                               "job2_03.png"];
                   succeeded := true |};
     gm := noExec;
     puppeteerLaunch := true; puppeteerPage := λ _, true; browserClose := true;
     naturalSort := compareNames;
     generateContent := reliable;
     completion := λ _ _, [];
     render := λ md, OK ("%PDF " +:+ md) |}.

End Samples.

(** ** The page of the application: selection and batch processing *)

Module Home.

(** A [File] object of the browser; [identity] stands for the object itself,
    which is what [===] compares. *)
Record File : Type := { identity : nat; name : string; type : string }.

Inductive Status : Type := Pending | Processing | Completed | Error.

(** An entry of the [files] state. The keys [progressMessage] and
    [progressDetails], which the progress poller writes as well, are left
    out. *)
Record FileWithStatus : Type := {
  file : File;
  status : Status;
  downloadUrl : option string;
  entryError : option string;          (* the key [error] *)
  fileId : option string
}.

(** The state of the component, without [progress] and
    [currentProcessingFile]. *)
Record state : Type := {
  files : list FileWithStatus;
  batchSize : nat;
  isProcessing : bool;
  error : option string;
  success : option string
}.

Definition initial : state :=
  {| files := []; batchSize := 10; isProcessing := false; error := None; success := None |}.

Definition isPdf (f : File) : Prop := type f = "application/pdf".

#[global] Instance isPdf_dec f : Decision (isPdf f).
Proof. unfold isPdf. apply _. Defined.

Definition newEntry (f : File) : FileWithStatus :=
  {| file := f; status := Pending; downloadUrl := None; entryError := None;
     fileId := None |}.

Definition handleFileSelect (selectedFiles : option (list File)) (s : state) : state :=
  match selectedFiles with
  | None => s
  | Some selected =>
      let pdfFiles := filter isPdf selected in
      if length pdfFiles =? 0 then
        {| files := files s; batchSize := batchSize s; isProcessing := isProcessing s;
           error := Some "Please select PDF files only"; success := success s |}
      else
        {| files := files s ++ map newEntry pdfFiles; batchSize := batchSize s;
           isProcessing := isProcessing s; error := None; success := success s |}
  end.

Definition clearFiles (s : state) : state :=
  {| files := []; batchSize := batchSize s; isProcessing := isProcessing s;
     error := None; success := None |}.

(** The URLs that [clearFiles] revokes. *)
Definition revoked (s : state) : list string := omap downloadUrl (files s).

(** What the conversion request of one file comes to: a document, behind a
    fresh object URL; an answer that is not [ok], with the [error] key of its
    body; or a thrown value. *)
Inductive fetched : Type :=
| Converted (url : string)
| Refused (errorKey : option string)
| Threw (e : thrown).

(** What lies outside the component while it processes the files. *)
Record browser : Type := {
  newFileId : File → string;                  (* Date.now() and Math.random() *)
  convertFile : File → fetched;               (* fetch('/api/process-pdf') *)
  (* the order in which the requests of a batch settle *)
  settleOrder : list FileWithStatus → list FileWithStatus
}.

(** [f.file === g.file] *)
Definition sameFile (f g : FileWithStatus) : bool :=
  identity (file f) =? identity (file g).

Definition setStatus (st : Status) (f : FileWithStatus) : FileWithStatus :=
  {| file := file f; status := st; downloadUrl := downloadUrl f;
     entryError := entryError f; fileId := fileId f |}.

(** [batch.some((bf) => bf.file === f.file)]: [f] is, by identity, one of
    the entries of [batch]. *)
Definition among (batch : list FileWithStatus) (f : FileWithStatus) : bool :=
  existsb (λ bf, sameFile bf f) batch.

(** The batch is marked as being processed:
    [prev.map((f) => batch.some(...) ? { ...f, status: 'processing' } : f)]. *)
Definition markE (batch : list FileWithStatus) (f : FileWithStatus) : FileWithStatus :=
  if among batch f then setStatus Processing f else f.

Definition markProcessing (batch fs : list FileWithStatus) : list FileWithStatus :=
  map (markE batch) fs.

(** The start of the request of one file: its entry gets the file id. *)
Definition startE (b : browser) (bf f : FileWithStatus) : FileWithStatus :=
  if sameFile f bf
  then {| file := file f; status := Processing; downloadUrl := downloadUrl f;
          entryError := entryError f; fileId := Some (newFileId b (file bf)) |}
  else f.

Definition start (b : browser) (bf : FileWithStatus) (fs : list FileWithStatus)
  : list FileWithStatus :=
  map (startE b bf) fs.

(** [errorData.error || 'Processing failed'], and
    [err instanceof Error ? err.message : 'Unknown error']. *)
Definition failureMessage (r : fetched) : string :=
  match r with
  | Converted _ => ""
  | Refused (Some m) => if String.eqb m "" then "Processing failed" else m
  | Refused None => "Processing failed"
  | Threw (ErrorObject m) => m
  | Threw (NonError _) => "Unknown error"
  end.

(** The end of the request of one file: its entry becomes completed, with
    the URL of the document, or in error, with the message. *)
Definition finishE (b : browser) (bf f : FileWithStatus) : FileWithStatus :=
  if sameFile f bf then
    match convertFile b (file bf) with
    | Converted url =>
        {| file := file f; status := Completed; downloadUrl := Some url;
           entryError := entryError f; fileId := fileId f |}
    | r =>
        {| file := file f; status := Error; downloadUrl := downloadUrl f;
           entryError := Some (failureMessage r); fileId := fileId f |}
    end
  else f.

Definition finish (b : browser) (bf : FileWithStatus) (fs : list FileWithStatus)
  : list FileWithStatus :=
  map (finishE b bf) fs.

(** One batch: every request starts, in the order of the batch, before the
    first one settles; the requests settle in the order of [settleOrder]. *)
Definition processBatch (b : browser) (batch fs : list FileWithStatus)
  : list FileWithStatus :=
  let fs := markProcessing batch fs in
  let fs := foldl (λ fs bf, start b bf fs) fs batch in
  foldl (λ fs bf, finish b bf fs) fs (settleOrder b batch).

(** The loop [for (let i = 0; i < pendingFiles.length; i += batchSize)]; it
    returns the entries, [processedCount] and the batches it went through,
    and [None] when [fuel] iterations do not reach the end of the loop. *)
Fixpoint batchLoop (b : browser) (pendingFiles : list FileWithStatus) (size : nat)
    (fuel i processedCount : nat) (fs : list FileWithStatus) {struct fuel}
  : option (list FileWithStatus * nat * list (list FileWithStatus)) :=
  if i <? length pendingFiles then
    match fuel with
    | 0 => None
    | S fuel' =>
        let batch := Convert.slice pendingFiles i (i + size) in
        let fs := processBatch b batch fs in
        match batchLoop b pendingFiles size fuel' (i + size)
                (processedCount + length batch) fs with
        | None => None
        | Some (fs', n, batches) => Some (fs', n, batch :: batches)
        end
    end
  else Some (fs, processedCount, []).

Definition isPending (f : FileWithStatus) : Prop := status f = Pending.

#[global] Instance Status_eq_dec : EqDecision Status.
Proof. solve_decision. Defined.

#[global] Instance isPending_dec f : Decision (isPending f).
Proof. unfold isPending. apply _. Defined.

(** [processFiles], with no other event of the page in between. *)
Definition processFiles (b : browser) (s : state)
  : option (state * list (list FileWithStatus)) :=
  if length (files s) =? 0 then
    Some ({| files := files s; batchSize := batchSize s; isProcessing := isProcessing s;
             error := Some "Please select files first"; success := success s |}, [])
  else
    let pendingFiles := filter isPending (files s) in
    match batchLoop b pendingFiles (batchSize s) (length pendingFiles) 0 0 (files s) with
    | None => None
    | Some (fs, processedCount, batches) =>
        Some ({| files := fs; batchSize := batchSize s; isProcessing := false;
                 error := None;
                 success := Some ("Processed " +:+ pretty processedCount
                                  +:+ " file(s) successfully") |}, batches)
    end.

(** What a pending entry has become when its request has settled. *)
Definition settled (b : browser) (f : FileWithStatus) : FileWithStatus :=
  match convertFile b (file f) with
  | Converted url =>
      {| file := file f; status := Completed; downloadUrl := Some url;
         entryError := entryError f; fileId := Some (newFileId b (file f)) |}
  | r =>
      {| file := file f; status := Error; downloadUrl := downloadUrl f;
         entryError := Some (failureMessage r); fileId := Some (newFileId b (file f)) |}
  end.

(** The entries when the first [i] pending files of [files0] have been
    processed. *)
Definition afterFirst (b : browser) (files0 : list FileWithStatus) (i : nat)
  : list FileWithStatus :=
  map (λ f, if among (take i (filter isPending files0)) f then settled b f else f) files0.

(** The identities of the files of a list of entries. *)
Definition identities (fs : list FileWithStatus) : list nat :=
  map (λ f, identity (file f)) fs.

(** What an entry holds for each status once the page is at rest. *)
Definition consistent (f : FileWithStatus) : Prop :=
  match status f with
  | Pending => downloadUrl f = None ∧ entryError f = None ∧ fileId f = None
  | Processing => False
  | Completed => is_Some (downloadUrl f) ∧ entryError f = None ∧ is_Some (fileId f)
  | Error => downloadUrl f = None ∧ is_Some (entryError f) ∧ is_Some (fileId f)
  end.

(** The states the page reaches at rest: files are selected (the browser
    hands over [File] objects that are new), the list is cleared, a batch
    size is chosen among the three options, or a run of [processFiles]
    comes to its end. *)
Inductive reachable : state → Prop :=
| reach_initial : reachable initial
| reach_select s selected :
    reachable s →
    NoDup (identities (files s) ++ map identity selected) →
    reachable (handleFileSelect (Some selected) s)
| reach_clear s : reachable s → reachable (clearFiles s)
| reach_batchSize s n :
    reachable s → n ∈ [10; 20; 30] →
    reachable {| files := files s; batchSize := n; isProcessing := isProcessing s;
                 error := error s; success := success s |}
| reach_process b s s' batches :
    reachable s →
    (∀ batch, settleOrder b batch ≡ₚ batch) →
    processFiles b s = Some (s', batches) →
    reachable s'.

End Home.

(** ** A sample session of the page *)

Module HomeSamples.
Import Home.

Definition scanA : File := {| identity := 1; name := "a.pdf"; type := "application/pdf" |}.
Definition notes : File := {| identity := 2; name := "notes.txt"; type := "text/plain" |}.
Definition scanB : File := {| identity := 3; name := "b.pdf"; type := "application/pdf" |}.
Definition scanC : File := {| identity := 4; name := "c.pdf"; type := "application/pdf" |}.

(** The first document is converted, the second one is refused by the
    server, the request of the third one fails; the requests settle in the
    reverse order. *)
Definition sampleBrowser : browser :=
  {| newFileId := λ f, "id_" +:+ name f;
     convertFile := λ f,
       if identity f =? 1 then Converted "blob:a"
       else if identity f =? 3 then Refused (Some "No file provided")
       else Threw (NonError "network");
     settleOrder := reverse |}.

Definition selection : state := handleFileSelect (Some [scanA; notes; scanB; scanC]) initial.

(** The same selection, two files at a time. *)
Definition selectionByTwo : state :=
  {| files := files selection; batchSize := 2; isProcessing := false;
     error := None; success := None |}.

End HomeSamples.

(** ** Views used to state properties *)

Module Views.
Import Progress Convert.

(** The value carried by the most recent element that carries one. *)
Fixpoint lastSome {A} (l : list (option A)) : option A :=
  match l with
  | [] => None
  | o :: l' =>
      match lastSome l' with
      | Some x => Some x
      | None => o
      end
  end.

(** Every record of the store has a pending deletion, due within the hour. *)
Definition timers_ok (w : world) : Prop :=
  ∀ id p, progressStore w !! id = Some p →
    ∃ d, (d, id) ∈ timers w ∧ (d ≤ now w + TTL)%N.

(** The image file names of method 1 and method 5 for page [i], from 1. *)
Definition pageImageName (j : job) (i : nat) : string :=
  fileId j +:+ "." +:+ pretty i +:+ ".png".





(** [Math.ceil(images.length / CHUNK_SIZE)], the [totalChunks] of the
    progress reports. *)
Definition totalChunksOf (n : nat) : nat := (n + CHUNK_SIZE - 1) / CHUNK_SIZE.

(** The chunks of a document of [n] pages: number, first page, last page. *)
Definition chunkPlan (n : nat) : list event :=
  map (λ i, EvChunk (i + 1) (i * CHUNK_SIZE + 1) (Nat.min (i * CHUNK_SIZE + CHUNK_SIZE) n))
      (seq 0 (totalChunksOf n)).

(** The chunk an event belongs to. *)
Definition eventChunk (e : event) : nat :=
  match e with
  | EvChunk c _ _ | EvAttempt c _ | EvCompleted c _ | EvFailed c _ _
  | EvSleep c _ | EvExhausted c => c
  end.

Definition isAttemptEvent (e : event) : bool :=
  match e with EvAttempt _ _ => true | _ => false end.

(** The number of attempts made during a run. *)
Definition attemptCount (tr : list event) : nat :=
  length (filter (λ e, isAttemptEvent e) tr).

Definition pauseOf (e : event) : nat :=
  match e with EvSleep _ ms => ms | _ => 0 end.

(** The time spent pausing during a run, in milliseconds. *)
Definition totalPause (tr : list event) : nat := sum_list_with pauseOf tr.

(** The first answer of the worker of every page. *)
Definition firstAnswers (j : job) (imgs : list string) : list (result pageResult) :=
  imap (λ i imagePath, ocrPage j imagePath (i + 1) 1) imgs.

(** Every character of the string is white space. *)
Fixpoint allWhiteSpace (s : string) : bool :=
  match s with
  | EmptyString => true
  | String c s' => JS.isWhiteSpace c && allWhiteSpace s'
  end.

End Views.

(** ** More sample requests *)

Module MoreSamples.
Import Convert Samples.

(** A document without pages, for which no command-line tool is installed. *)
Definition noPages : job :=
  {| file := Some "empty.pdf"; providedFileId := None; generatedFileId := "g1";
     apiKey := Some "key"; cwd := "/app"; joinPath := posixJoin;
     staleImages := ["g1.1.png"]; unlinkFails := λ _, false;
     pdfLoad := OK 0; pdf2picLoad := true; pdf2pic := λ _, P2PData;
     magick := noExec; convert := noExec; gm := noExec;
     puppeteerLaunch := true; puppeteerPage := λ _, true; browserClose := true;
     naturalSort := compareNames;
     generateContent := reliable;
     completion := λ _ _, [];
     render := λ md, OK ("%PDF " +:+ md) |}.


(** A request made while the API key is set to blanks. *)
Definition blankKey : job :=
  {| file := Some "scan.pdf"; providedFileId := Some "job3"; generatedFileId := "g";
     apiKey := Some "   "; cwd := "/app"; joinPath := posixJoin;
     staleImages := []; unlinkFails := λ _, false;
     pdfLoad := OK 5; pdf2picLoad := true; pdf2pic := λ _, P2PData;
     magick := noExec; convert := noExec; gm := noExec;
     puppeteerLaunch := false; puppeteerPage := λ _, false; browserClose := false;
     naturalSort := compareNames;
     generateContent := reliable;
     completion := λ _ _, [];
     render := λ md, OK ("%PDF " +:+ md) |}.

End MoreSamples.

(** ** Properties of the JavaScript primitives *)

Module JSProps.

(** *** Strings and joins *)

Lemma string_app_cons (x : ascii) (a b : string) :
  String x a +:+ b = String x (a +:+ b).
Proof. reflexivity. Qed.

Lemma string_app_assoc (a b c : string) : (a +:+ b) +:+ c = a +:+ (b +:+ c).
Proof. induction a as [| x a IH]; [done |]. by rewrite !string_app_cons, IH. Qed.

Lemma string_app_nil_r (a : string) : a +:+ "" = a.
Proof. induction a as [| x a IH]; [done |]. by rewrite string_app_cons, IH. Qed.

Lemma join_cons (sep x y : string) (l : list string) :
  JS.join sep (x :: y :: l) = x +:+ sep +:+ JS.join sep (y :: l).
Proof. reflexivity. Qed.

Lemma join_app (sep : string) (l1 l2 : list string) :
  l1 ≠ [] → l2 ≠ [] →
  JS.join sep (l1 ++ l2) = JS.join sep l1 +:+ sep +:+ JS.join sep l2.
Proof.
  intros H1 H2. induction l1 as [| x l1 IH]; [done |].
  destruct l1 as [| y l1].
  - destruct l2 as [| z l2]; [done |]. reflexivity.
  - change ((x :: y :: l1) ++ l2) with (x :: y :: (l1 ++ l2)).
    rewrite !join_cons. change (y :: l1 ++ l2) with ((y :: l1) ++ l2).
    rewrite IH by done. by rewrite !string_app_assoc.
Qed.

(** *** Sorting *)

Section SortFacts.
Context {A : Type} (cmp : A → A → Z).

Lemma sortInsert_last (x : A) (a : list A) :
  Forall (λ y, JS.notAfter cmp y x) a → JS.sortInsert cmp x a = a ++ [x].
Proof.
  induction 1 as [| y a Hy _ IH]; [done |].
  cbn [JS.sortInsert]. unfold JS.notAfter in Hy. by rewrite Hy, IH.
Qed.

Lemma sort_from (acc a : list A) :
  StronglySorted (JS.notAfter cmp) (acc ++ a) →
  foldl (λ acc x, JS.sortInsert cmp x acc) acc a = acc ++ a.
Proof.
  revert acc. induction a as [| x a IH]; intros acc Hs.
  - by rewrite app_nil_r.
  - cbn [foldl]. rewrite sortInsert_last.
    + rewrite IH; rewrite <- app_assoc; done.
    + apply Forall_forall. intros y Hy.
      apply (StronglySorted_app_1_elem_of (JS.notAfter cmp) acc (x :: a)); [done | done | by left].
Qed.

(** An array already in order is left as it is. *)
Lemma sort_sorted (a : list A) : StronglySorted (JS.notAfter cmp) a → JS.sort cmp a = a.
Proof. intros Hs. unfold JS.sort. by rewrite sort_from. Qed.

Lemma sortInsert_Permutation (x : A) (a : list A) : JS.sortInsert cmp x a ≡ₚ x :: a.
Proof.
  induction a as [| y a IH]; [done |]. cbn [JS.sortInsert].
  destruct (cmp x y <? 0)%Z; [done |]. rewrite IH. apply Permutation_swap.
Qed.

Lemma sort_from_Permutation (acc a : list A) :
  foldl (λ acc x, JS.sortInsert cmp x acc) acc a ≡ₚ acc ++ a.
Proof.
  revert acc. induction a as [| x a IH]; intros acc.
  - by rewrite app_nil_r.
  - cbn [foldl]. rewrite IH, sortInsert_Permutation. apply Permutation_middle.
Qed.

(** Sorting keeps the elements. *)
Lemma sort_Permutation (a : list A) : JS.sort cmp a ≡ₚ a.
Proof. apply sort_from_Permutation. Qed.
End SortFacts.

End JSProps.

(** ** Properties of the progress store *)

Module ProgressProps.
Import Progress Samples.

Lemma sliceLast_length {A} (n : nat) (a : list A) : length (JS.sliceLast n a) ≤ n.
Proof. unfold JS.sliceLast. rewrite length_drop. lia. Qed.

Lemma sliceLast_app {A} (n : nat) (a b : list A) :
  JS.sliceLast n (JS.sliceLast n a ++ b) = JS.sliceLast n (a ++ b).
Proof.
  unfold JS.sliceLast.
  rewrite !length_app, length_drop.
  destruct (decide (length a ≤ n)) as [Hle | Hgt].
  - replace (length a - n) with 0 by lia. simpl. f_equal. lia.
  - replace (length a + length b - n) with ((length a - n) + length b) by lia.
    replace (length a - (length a - n) + length b - n) with (length b) by lia.
    rewrite <- drop_drop.
    rewrite (drop_app_le a b (length a - n)) by lia.
    reflexivity.
Qed.

Lemma filter_all {A} (P : A → Prop) `{∀ x, Decision (P x)} (a : list A) :
  Forall P a → filter P a = a.
Proof.
  induction 1 as [| x a Hx _ IH]; [reflexivity |].
  rewrite filter_cons_True by assumption. by rewrite IH.
Qed.

Lemma Forall_filter_self {A} (P : A → Prop) `{∀ x, Decision (P x)} (a : list A) :
  Forall P (filter P a).
Proof. apply Forall_forall. intros x Hx. by apply list_elem_of_filter in Hx as [? _]. Qed.

Lemma merge_logs_truthy (existing : progress) (u : update) :
  Forall JS.truthy (logs (merge existing u)).
Proof. simpl. unfold JS.sliceLast. apply Forall_drop, Forall_filter_self. Qed.

Lemma merge_logs_length (existing : progress) (u : update) :
  length (logs (merge existing u)) ≤ LOG_CAP.
Proof. simpl. apply sliceLast_length. Qed.

Lemma merge_logs_window (existing : progress) (u : update) :
  Forall JS.truthy (logs existing) →
  logs (merge existing u) =
    JS.sliceLast LOG_CAP (logs existing ++ filter JS.truthy [line u]).
Proof.
  intros Hok. simpl. rewrite filter_app. by rewrite (filter_all _ _ Hok).
Qed.

Lemma missing_false (id : string) : id ≠ "" → missing (Some id) = false.
Proof. intros Hne. simpl. by apply String.eqb_neq. Qed.

Lemma POST_store (w : world) (id : string) (u : update) :
  id ≠ "" →
  (POST (Json (Some id) (Some u)) w).2 =
    {| now := now w;
       progressStore :=
         <[id := merge (default defaults (progressStore w !! id)) u]> (progressStore w);
       timers := timers w ++ [((now w + TTL)%N, id)] |}.
Proof. intros Hne. unfold POST. by rewrite (missing_false _ Hne). Qed.

Lemma foldl_delete_lookup (l : list (N * string)) (st : gmap string progress) (id : string) :
  foldl (λ st tm, delete tm.2 st) st l !! id =
    if decide (id ∈ l.*2) then None else st !! id.
Proof.
  revert st. induction l as [| [d k] l IH]; intros st.
  - done.
  - rewrite fmap_cons. cbn [foldl snd]. rewrite IH. destruct (decide (id = k)) as [-> | Hne].
    + rewrite lookup_delete_eq.
      rewrite (decide_True (P := k ∈ k :: l.*2)) by (left).
      by case_decide.
    + rewrite lookup_delete_ne by done.
      destruct (decide (id ∈ l.*2)) as [Hin | Hnin].
      * by rewrite decide_True by (by right).
      * rewrite decide_False; [done |].
        intros [? | ?]%elem_of_cons; done.
Qed.

Lemma advance_lookup (t : N) (w : world) (id : string) :
  progressStore (advance t w) !! id =
    if decide (id ∈ (filter (due t) (timers w)).*2) then None
    else progressStore w !! id.
Proof. apply foldl_delete_lookup. Qed.

Lemma advance_deleted (t d : N) (w : world) (id : string) :
  (d, id) ∈ timers w → (d ≤ t)%N → progressStore (advance t w) !! id = None.
Proof.
  intros Hin Hd. rewrite advance_lookup, decide_True; [done |].
  apply list_elem_of_fmap. exists (d, id). split; [done |].
  apply list_elem_of_filter. by split.
Qed.

Lemma advance_kept (t : N) (w : world) (id : string) :
  (∀ d, (d, id) ∈ timers w → (t < d)%N) →
  progressStore (advance t w) !! id = progressStore w !! id.
Proof.
  intros Hlate. rewrite advance_lookup, decide_False; [done |].
  intros ([d k] & Hk & [Hdue Hin]%list_elem_of_filter)%list_elem_of_fmap.
  simpl in Hk. subst k. specialize (Hlate d Hin). unfold due in Hdue. simpl in Hdue. lia.
Qed.

Lemma store_ok_init : store_ok init.
Proof. intros id p H. simpl in H. by rewrite lookup_empty in H. Qed.

Lemma store_ok_POST (req : request) (w : world) : store_ok w → store_ok (POST req w).2.
Proof.
  intros Hok. destruct req as [| [id |] [u |]]; simpl; try done.
  destruct (String.eqb id ""); [done |].
  intros k p. simpl. rewrite lookup_insert. case_decide.
  - intros [= <-]. split; [apply merge_logs_truthy | apply merge_logs_length].
  - apply Hok.
Qed.

Lemma store_ok_advance (t : N) (w : world) : store_ok w → store_ok (advance t w).
Proof.
  intros Hok id p. rewrite advance_lookup. case_decide; [done | apply Hok].
Qed.

Lemma store_ok_run (ss : list step) (w : world) : store_ok w → store_ok (run ss w).
Proof.
  revert w. induction ss as [| s ss IH]; intros w Hok; [done |].
  apply IH. destruct s; [by apply store_ok_POST | by apply store_ok_advance].
Qed.

(** In every reachable state of the process, no record holds more log lines
    than the cap. *)
Lemma reachable_logs_bounded (ss : list step) (id : string) (p : progress) :
  progressStore (run ss init) !! id = Some p → length (logs p) ≤ LOG_CAP.
Proof. intros H. by apply (store_ok_run ss init store_ok_init id p). Qed.

Lemma posts_snoc (id : string) (us : list update) (u : update) (w : world) :
  posts id (us ++ [u]) w = (POST (Json (Some id) (Some u)) (posts id us w)).2.
Proof. unfold posts. by rewrite foldl_app. Qed.

Lemma posts_window (id : string) (us : list update) (w : world) :
  id ≠ "" → store_ok w → us ≠ [] →
  ∃ p, progressStore (posts id us w) !! id = Some p
       ∧ logs p = JS.sliceLast LOG_CAP
                    (logs (default defaults (progressStore w !! id))
                     ++ filter JS.truthy (map line us)).
Proof.
  intros Hid Hok. induction us as [| u us IH] using rev_ind; [done |]. intros _.
  rewrite posts_snoc, POST_store by done. cbn [progressStore].
  rewrite lookup_insert_eq. eexists. split; [done |].
  assert (Hold : Forall JS.truthy (logs (default defaults (progressStore w !! id)))).
  { destruct (progressStore w !! id) as [p0 |] eqn:E; simpl; [by apply (Hok id p0) | done]. }
  destruct (decide (us = [])) as [-> | Hne].
  - change (posts id [] w) with w. by rewrite merge_logs_window.
  - destruct (IH Hne) as (p & Hp & Hlogs). rewrite Hp. change (default defaults (Some p)) with p.
    rewrite merge_logs_window.
    + rewrite Hlogs, sliceLast_app, map_app, filter_app, app_assoc. done.
    + rewrite Hlogs. unfold JS.sliceLast. apply Forall_drop, Forall_app. split; [done |].
      apply Forall_filter_self.
Qed.

(** C6. Whatever requests and timer expiries came before, posting a non-empty
    sequence of updates for a job id leaves a record whose log window holds at
    most 50 lines: the lines already stored followed by the non-empty lines
    just posted, with the oldest ones dropped from the front beyond 50. *)
Theorem log_window_cap (ss : list step) (id : string) (us : list update) :
  id ≠ "" → us ≠ [] →
  let w0 := run ss init in
  let all := logs (default defaults (progressStore w0 !! id))
             ++ filter JS.truthy (map line us) in
  ∃ p, progressStore (posts id us w0) !! id = Some p
       ∧ length (logs p) ≤ 50
       ∧ logs p = drop (length all - 50) all.
Proof.
  intros Hid Hus w0 all.
  destruct (posts_window id us w0 Hid (store_ok_run ss init store_ok_init) Hus)
    as (p & Hp & Hlogs).
  exists p. split; [done |]. split; [| done].
  rewrite Hlogs. apply sliceLast_length.
Qed.

Lemma log_window_cap_witness :
  ∃ p, progressStore (posts "job" sampleUpdates (run [] init)) !! "job" = Some p
       ∧ length (logs p) ≤ 50
       ∧ logs p = map (λ n, "line " +:+ pretty n) (seq 3 50).
Proof.
  destruct (log_window_cap [] "job" sampleUpdates) as (p & Hp & Hlen & Hlogs);
    [done | done |].
  exists p. split; [done |]. split; [done |].
  rewrite Hlogs. vm_compute. reflexivity.
Defined.

(** C7. For a job id without a record, [GET] answers 404 "Progress not found";
    right after one update for that id it answers the defaults overridden by
    the keys of the update, with the update's log line (when it has a
    non-empty one) as the only entry of [logs]. *)
Theorem progress_query (w : world) (id : string) (u : update) :
  id ≠ "" → progressStore w !! id = None →
  GET (Some id) w = {| body := PError "Progress not found"; code := 404 |}
  ∧ GET (Some id) (POST (Json (Some id) (Some u)) w).2 =
      {| body := PProgress
           {| totalPages := default 0 (u_totalPages u);
              processedPages := default 0 (u_processedPages u);
              currentChunk := default 0 (u_currentChunk u);
              totalChunks := default 0 (u_totalChunks u);
              status := default "starting" (u_status u);
              logs := match u_log u with
                      | Some l => if decide (l = "") then [] else [l]
                      | None => []
                      end;
              log := u_log u |};
         code := 200 |}.
Proof.
  intros Hid Hnone. split.
  - unfold GET. by rewrite (missing_false _ Hid), Hnone.
  - rewrite POST_store by done. unfold GET. rewrite (missing_false _ Hid).
    cbn [progressStore]. rewrite lookup_insert_eq, Hnone.
    do 2 f_equal. unfold merge, defaults. cbn.
    destruct u as [tp pp cc tc s [l |]]; cbn; f_equal.
    unfold JS.truthy.
    destruct (decide (l ≠ "")), (decide (l = "")); done.
Qed.

Lemma progress_query_witness :
  GET (Some "job") init = {| body := PError "Progress not found"; code := 404 |}
  ∧ GET (Some "job") (POST (Json (Some "job") (Some (sampleUpdate "first"))) init).2 =
      {| body := PProgress
           {| totalPages := 5; processedPages := 0; currentChunk := 0;
              totalChunks := 3; status := "Starting OCR processing...";
              logs := ["first"]; log := Some "first" |};
         code := 200 |}.
Proof. apply (progress_query init "job" (sampleUpdate "first")); done. Defined.

(** C9 as stated fails: a record written at time 0 and written again half an
    hour later is deleted one hour after the first write, half an hour after
    the last one. *)
Lemma expiry_not_extended :
  let post := Post (Json (Some "job") (Some (sampleUpdate "x"))) in
  let w2 := run [post; Tick 1800000; post] init in
  let w3 := run [post; Tick 1800000; post; Tick 3600000] init in
  now w2 = 1800000%N
  ∧ (∃ p, GET (Some "job") w2 = {| body := PProgress p; code := 200 |})
  ∧ now w3 = 3600000%N
  ∧ GET (Some "job") w3 = {| body := PError "Progress not found"; code := 404 |}.
Proof.
  cbv zeta. split; [vm_compute; reflexivity |].
  split; [eexists; vm_compute; reflexivity |].
  split; vm_compute; reflexivity.
Qed.

(** C9, amended. Each write schedules the deletion of the id's record one hour
    later and cancels nothing: after a write the record is gone once that
    hour has passed, it is gone as soon as a deletion scheduled by an earlier
    write falls due, and it is still the written record at any earlier time
    before which no such deletion is due. *)
Theorem expiry_after_each_write (w : world) (id : string) (u : update) (t : N) :
  id ≠ "" →
  let w' := (POST (Json (Some id) (Some u)) w).2 in
  ((now w + 3600000 ≤ t)%N → progressStore (advance t w') !! id = None)
  ∧ (∀ d, (d, id) ∈ timers w → (d ≤ t)%N → progressStore (advance t w') !! id = None)
  ∧ ((t < now w + 3600000)%N → (∀ d, (d, id) ∈ timers w → (t < d)%N) →
     progressStore (advance t w') !! id =
       Some (merge (default defaults (progressStore w !! id)) u)).
Proof.
  intros Hid w'. subst w'. rewrite POST_store by done. repeat split.
  - intros Ht. apply (advance_deleted t (now w + TTL)%N); [| done].
    cbn [timers]. apply elem_of_app. right. by apply list_elem_of_singleton.
  - intros d Hin Hd. apply (advance_deleted t d); [| done].
    cbn [timers]. apply elem_of_app. by left.
  - intros Ht Hlate. rewrite advance_kept.
    + cbn [progressStore]. apply lookup_insert_eq.
    + cbn [timers]. intros d [Hin | Hin%list_elem_of_singleton]%elem_of_app.
      * by apply Hlate.
      * injection Hin as ->. done.
Qed.

Lemma expiry_after_each_write_witness :
  progressStore (advance 3600000 (POST (Json (Some "job") (Some (sampleUpdate "x"))) init).2)
    !! "job" = None.
Proof.
  destruct (expiry_after_each_write init "job" (sampleUpdate "x") 3600000) as (H & _ & _);
    [done |].
  apply H. done.
Defined.
End ProgressProps.

(** ** Properties of the rasterization chain *)

Module RasterProps.
Import Convert JSProps.

Lemma pdf2picPages_flag (j : job) (pages : list nat) (st : raster) :
  conversionSuccess (pdf2picPages j pages st).1 = conversionSuccess st.
Proof.
  revert st. induction pages as [| i pages IH]; intros st; [done |].
  cbn [pdf2picPages]. destruct (pdf2pic j i); [done | apply IH |]. by rewrite IH.
Qed.

Lemma puppeteerPages_flag (j : job) (indices : list nat) (st : raster) :
  conversionSuccess (puppeteerPages j indices st).1 = conversionSuccess st.
Proof.
  revert st. induction indices as [| i indices IH]; intros st; [done |].
  cbn [puppeteerPages]. destruct (puppeteerPage j i); [| done]. by rewrite IH.
Qed.

(** Method 1 is accepted only with one image per page. *)
Lemma method1_exact (j : job) (pageCount : nat) (st : raster) :
  conversionSuccess st = false →
  conversionSuccess (method1 j pageCount st) = true →
  length (images (method1 j pageCount st)) = pageCount.
Proof.
  intros Hst. unfold method1. destruct (pdf2picLoad j); [| congruence].
  pose proof (pdf2picPages_flag j (seq 1 pageCount) st) as Hflag.
  destruct (pdf2picPages j (seq 1 pageCount) st) as [st' finished]. cbn [fst] in Hflag.
  destruct finished; cbn [andb]; [| congruence].
  destruct (length (images st') =? pageCount) eqn:Hlen; [| congruence].
  intros _. by apply Nat.eqb_eq.
Qed.

(** Method 5 is accepted only with one image per page. *)
Lemma method5_exact (j : job) (pageCount : nat) (st : raster) :
  conversionSuccess st = false →
  conversionSuccess (method5 j pageCount st) = true →
  length (images (method5 j pageCount st)) = pageCount.
Proof.
  intros Hst. unfold method5. rewrite Hst. destruct (puppeteerLaunch j); [| done].
  pose proof (puppeteerPages_flag j (seq 0 pageCount)
                {| images := []; conversionSuccess := false; dir := dir st |}) as Hflag.
  destruct (puppeteerPages j (seq 0 pageCount) _) as [st' finished]. cbn [fst] in Hflag.
  cbn [conversionSuccess] in Hflag.
  destruct finished; cbn [andb]; [| congruence].
  destruct (browserClose j); cbn [andb]; [| congruence].
  destruct (length (images st') =? pageCount) eqn:Hlen; [| congruence].
  intros _. by apply Nat.eqb_eq.
Qed.

(** Methods 2, 3 and 4 are accepted as soon as the command succeeds and the
    directory holds an image of the job, however many there are. *)
Lemma cliMethod_accepts (j : job) (r : execResult) (st : raster) :
  conversionSuccess st = false →
  conversionSuccess (cliMethod j r st) = true ↔
    succeeded r = true
    ∧ filter (λ f, ownImage j f) (foldl writeFile (dir st) (written r)) ≠ [].
Proof.
  intros Hst. unfold cliMethod. rewrite Hst.
  destruct (succeeded r); [| by split; [| intros [? _]]].
  rewrite length_map.
  rewrite (Permutation_length (sort_Permutation (naturalSort j) _)).
  destruct (filter _ _) as [| f fs]; cbn; split; try done; by intros [_ ?].
Qed.

End RasterProps.

(** ** Properties of the chunk scheduler *)

Module ConvertProps.
Import Convert Samples.

(** *** The attempt loop of one chunk *)

Lemma retryView_cons (c : nat) (e : event) (tr : list event) :
  retryView c (e :: tr) =
    if isRetryEvent c e then e :: retryView c tr else retryView c tr.
Proof.
  unfold retryView. rewrite filter_cons.
  destruct (isRetryEvent c e); by case_decide.
Qed.

Lemma retryView_app (c : nat) (tr1 tr2 : list event) :
  retryView c (tr1 ++ tr2) = retryView c tr1 ++ retryView c tr2.
Proof. apply filter_app. Qed.

Lemma chunkNumberOf_next (chunkStart : nat) :
  chunkNumberOf (chunkStart + CHUNK_SIZE) = chunkNumberOf chunkStart + 1.
Proof.
  unfold chunkNumberOf, CHUNK_SIZE.
  replace (chunkStart + 2) with (chunkStart + 1 * 2) by lia.
  rewrite Nat.div_add by lia. lia.
Qed.

Lemma attempts_retryView (j : job) (imgs : list string) (chunkStart : nat)
    (remaining attempt : nat) (st : chunkState) :
  attempt + remaining = MAX_RETRIES + 2 →
  ∃ k, k ≤ remaining ∧ (0 < remaining → 0 < k)
       ∧ retryView (chunkNumberOf chunkStart)
           (attempts j imgs chunkStart remaining attempt st).2
         = scheduleFrom (chunkNumberOf chunkStart) attempt k.
Proof.
  revert attempt st. induction remaining as [| r IH]; intros attempt st Hsum.
  - exists 0. split; [lia |]. split; [lia |]. reflexivity.
  - cbn [attempts]. destruct (attemptChunk j imgs chunkStart attempt) as [rs | e].
    + exists 1. split; [lia |]. split; [lia |]. cbn [snd].
      rewrite !retryView_cons. cbn [isRetryEvent]. by rewrite Nat.eqb_refl.
    + destruct (IH (attempt + 1) (withLastError st e))
        as (k & Hk & Hpos & Hview); [lia |].
      destruct (attempts j imgs chunkStart r (attempt + 1) _) as [st' evs].
      cbn [snd] in *. exists (S k). split; [lia |]. split; [lia |].
      rewrite !retryView_cons. cbn [isRetryEvent]. rewrite Nat.eqb_refl.
      rewrite retryView_app, Hview.
      destruct r as [| r'].
      * assert (k = 0) as -> by lia.
        replace (attempt <=? MAX_RETRIES) with false
          by (symmetry; apply Nat.leb_gt; unfold MAX_RETRIES in *; lia).
        reflexivity.
      * replace (attempt <=? MAX_RETRIES) with true
          by (symmetry; apply Nat.leb_le; unfold MAX_RETRIES in *; lia).
        destruct k as [| k']; [lia |].
        rewrite retryView_cons. cbn [isRetryEvent]. rewrite Nat.eqb_refl.
        reflexivity.
Qed.

Lemma attempts_retryView_other (j : job) (imgs : list string) (chunkStart : nat)
    (remaining attempt : nat) (st : chunkState) (c : nat) :
  c ≠ chunkNumberOf chunkStart →
  retryView c (attempts j imgs chunkStart remaining attempt st).2 = [].
Proof.
  intros Hc. revert attempt st. induction remaining as [| r IH]; intros attempt st.
  - reflexivity.
  - assert (Hne : (chunkNumberOf chunkStart =? c) = false)
      by (apply Nat.eqb_neq; congruence).
    cbn [attempts]. destruct (attemptChunk j imgs chunkStart attempt) as [rs | e].
    + cbn [snd]. rewrite !retryView_cons. cbn [isRetryEvent]. by rewrite Hne.
    + specialize (IH (attempt + 1) (withLastError st e)).
      destruct (attempts j imgs chunkStart r (attempt + 1) _) as [st' evs].
      cbn [snd] in *. rewrite !retryView_cons. cbn [isRetryEvent]. rewrite Hne.
      rewrite retryView_app, IH, app_nil_r.
      destruct (attempt <=? MAX_RETRIES); [| reflexivity].
      rewrite retryView_cons. cbn [isRetryEvent]. by rewrite Hne.
Qed.


(** *** What the attempts at a chunk leave behind *)

Lemma attempts_S (j : job) (imgs : list string) (chunkStart : nat)
    (remaining attempt : nat) (st : chunkState) :
  attempts j imgs chunkStart (S remaining) attempt st =
    match attemptChunk j imgs chunkStart attempt with
    | OK chunkResults =>
        ({| chunkSuccess := true; chunkMarkdown := joinChunk chunkResults;
            lastError := lastError st |},
         [EvAttempt (chunkNumberOf chunkStart) attempt;
          EvCompleted (chunkNumberOf chunkStart) (chunkEndOf imgs chunkStart)])
    | Throw e =>
        let st' := withLastError st e in
        let pause := if attempt <=? MAX_RETRIES
                     then [EvSleep (chunkNumberOf chunkStart) (1000 * attempt)]
                     else [] in
        let '(st'', evs) := attempts j imgs chunkStart remaining (attempt + 1) st' in
        (st'', EvAttempt (chunkNumberOf chunkStart) attempt
               :: EvFailed (chunkNumberOf chunkStart) attempt (asErrorMessage e)
               :: pause ++ evs)
    end.
Proof. reflexivity. Qed.


Lemma attempts_exhausted (j : job) (imgs : list string) (chunkStart : nat)
    (remaining attempt : nat) (st : chunkState) (e : thrown) :
  (∀ i, i < remaining → ∃ e', attemptChunk j imgs chunkStart (attempt + i) = Throw e') →
  attemptChunk j imgs chunkStart (attempt + remaining) = Throw e →
  (attempts j imgs chunkStart (S remaining) attempt st).1 = withLastError st e.
Proof.
  revert attempt st.
  induction remaining as [| r IH]; intros attempt st Hfail Hlast.
  - cbn [attempts]. rewrite Nat.add_0_r in Hlast. by rewrite Hlast.
  - destruct (Hfail 0 ltac:(lia)) as [e' He']. rewrite Nat.add_0_r in He'.
    rewrite attempts_S, He'. cbv zeta.
    specialize (IH (attempt + 1) (withLastError st e')).
    destruct (attempts j imgs chunkStart (S r) (attempt + 1) _) as [st' evs].
    cbn [fst] in *. apply IH.
    + intros i Hi. replace (attempt + 1 + i) with (attempt + S i) by lia.
      apply Hfail. lia.
    + by replace (attempt + 1 + r) with (attempt + S r) by lia.
Qed.

(** Two runs of the attempts whose outcomes agree attempt by attempt, up to
    the value thrown, agree on success and on the body of the chunk. *)
Lemma attempts_agree (j1 j2 : job) (imgs : list string) (chunkStart : nat)
    (remaining attempt : nat) (st1 st2 : chunkState) :
  (∀ a, attempt ≤ a < attempt + remaining →
        agree (attemptChunk j1 imgs chunkStart a) (attemptChunk j2 imgs chunkStart a)) →
  chunkSuccess st1 = chunkSuccess st2 → chunkMarkdown st1 = chunkMarkdown st2 →
  chunkSuccess (attempts j1 imgs chunkStart remaining attempt st1).1
  = chunkSuccess (attempts j2 imgs chunkStart remaining attempt st2).1
  ∧ chunkMarkdown (attempts j1 imgs chunkStart remaining attempt st1).1
    = chunkMarkdown (attempts j2 imgs chunkStart remaining attempt st2).1.
Proof.
  revert attempt st1 st2.
  induction remaining as [| r IH]; intros attempt st1 st2 Hagree Hs Hm; [done |].
  cbn [attempts]. pose proof (Hagree attempt ltac:(lia)) as Hnow.
  destruct (attemptChunk j1 imgs chunkStart attempt) as [rs1 | e1],
           (attemptChunk j2 imgs chunkStart attempt) as [rs2 | e2];
    cbn [agree] in Hnow; try done.
  - subst rs2. done.
  - assert (Hlater : ∀ a, attempt + 1 ≤ a < attempt + 1 + r →
              agree (attemptChunk j1 imgs chunkStart a) (attemptChunk j2 imgs chunkStart a))
      by (intros a Ha; apply Hagree; lia).
    specialize (IH (attempt + 1) (withLastError st1 e1) (withLastError st2 e2)
                  Hlater Hs Hm).
    destruct (attempts j1 imgs chunkStart r (attempt + 1) _) as [st1' evs1].
    destruct (attempts j2 imgs chunkStart r (attempt + 1) _) as [st2' evs2].
    exact IH.
Qed.


Lemma attempts_succeeds_any (j : job) (imgs : list string) (chunkStart : nat)
    (remaining attempt : nat) (st : chunkState) :
  (∃ a rs, attempt ≤ a < attempt + remaining
           ∧ attemptChunk j imgs chunkStart a = OK rs) →
  chunkSuccess (attempts j imgs chunkStart remaining attempt st).1 = true.
Proof.
  revert attempt st.
  induction remaining as [| r IH]; intros attempt st (a & rs & Ha & Hok); [lia |].
  cbn [attempts].
  destruct (attemptChunk j imgs chunkStart attempt) as [rs' | e] eqn:Hnow; [done |].
  specialize (IH (attempt + 1) (withLastError st e)).
  destruct (attempts j imgs chunkStart r (attempt + 1) _) as [st' evs].
  cbn [fst] in *. apply IH. exists a, rs. split; [| done].
  destruct (decide (a = attempt)) as [-> | Hne]; [congruence | lia].
Qed.

(** A chunk that succeeded did so on one of its attempts, whose results make
    up its body. *)
Lemma attempts_success_inv (j : job) (imgs : list string) (chunkStart : nat)
    (remaining attempt : nat) (st : chunkState) :
  chunkSuccess st = false →
  chunkSuccess (attempts j imgs chunkStart remaining attempt st).1 = true →
  ∃ i rs, i < remaining
          ∧ attemptChunk j imgs chunkStart (attempt + i) = OK rs
          ∧ chunkMarkdown (attempts j imgs chunkStart remaining attempt st).1
            = joinChunk rs.
Proof.
  revert attempt st.
  induction remaining as [| r IH]; intros attempt st Hst; cbn [attempts].
  - cbn [fst]. congruence.
  - destruct (attemptChunk j imgs chunkStart attempt) as [rs | e] eqn:Hres.
    + intros _. exists 0, rs. rewrite Nat.add_0_r. split; [lia | done].
    + specialize (IH (attempt + 1) (withLastError st e) Hst).
      destruct (attempts j imgs chunkStart r (attempt + 1) _) as [st' evs].
      cbn [fst] in *. intros Hok. destruct (IH Hok) as (i & rs & Hi & Hrs & Hmd).
      exists (S i), rs. replace (attempt + S i) with (attempt + 1 + i) by lia.
      split; [lia | done].
Qed.

(** *** The chunk loop *)

Lemma chunkLoop_unfold (j : job) (imgs : list string) (fuel chunkStart : nat)
    (fullMarkdown : string) :
  chunkLoop j imgs fuel chunkStart fullMarkdown =
    if chunkStart <? length imgs then
      match fuel with
      | 0 => None
      | S fuel' =>
          let chunkEnd := chunkEndOf imgs chunkStart in
          let chunkNumber := chunkNumberOf chunkStart in
          let '(st, evs) := runChunk j imgs chunkStart in
          let evs := EvChunk chunkNumber (chunkStart + 1) chunkEnd :: evs in
          if negb (chunkSuccess st) then
            Some (Failed (ErrorObject
                    ("Failed to process chunk " +:+ pretty chunkNumber +:+ ": "
                     +:+ default "undefined" (lastError st))),
                  evs ++ [EvExhausted chunkNumber])
          else
            let fullMarkdown := fullMarkdown +:+ chunkMarkdown st in
            let fullMarkdown :=
              if chunkEnd <? length imgs then fullMarkdown +:+ SEPARATOR
              else fullMarkdown in
            match chunkLoop j imgs fuel' (chunkStart + CHUNK_SIZE) fullMarkdown with
            | None => None
            | Some (o, evs') => Some (o, evs ++ evs')
            end
      end
    else Some (Completed fullMarkdown, []).
Proof. destruct fuel; reflexivity. Qed.

Lemma chunkLoop_total (j : job) (imgs : list string) (fuel chunkStart : nat)
    (fullMarkdown : string) :
  length imgs - chunkStart ≤ fuel →
  ∃ r, chunkLoop j imgs fuel chunkStart fullMarkdown = Some r.
Proof.
  revert chunkStart fullMarkdown.
  induction fuel as [| fuel IH]; intros chunkStart fullMarkdown Hfuel;
    rewrite chunkLoop_unfold.
  - replace (chunkStart <? length imgs) with false
      by (symmetry; apply Nat.ltb_ge; lia).
    eauto.
  - destruct (chunkStart <? length imgs) eqn:Hlt; [| eauto].
    apply Nat.ltb_lt in Hlt. cbv zeta.
    destruct (runChunk j imgs chunkStart) as [st evs].
    destruct (negb (chunkSuccess st)); [eauto |].
    edestruct (IH (chunkStart + CHUNK_SIZE)) as [[o evs'] ->];
      [unfold CHUNK_SIZE; lia | eauto].
Qed.

(** The OCR phase always ends. *)
Lemma ocrPhase_total (j : job) (imgs : list string) :
  ∃ r, ocrPhase j imgs = Some r.
Proof. apply chunkLoop_total. lia. Qed.

Lemma chunkLoop_retryView (j : job) (imgs : list string) (fuel chunkStart : nat)
    (fullMarkdown : string) (o : outcome) (tr : list event) (c : nat) :
  chunkLoop j imgs fuel chunkStart fullMarkdown = Some (o, tr) →
  (∃ k, k ≤ MAX_RETRIES + 1 ∧ retryView c tr = scheduleFrom c 1 k)
  ∧ (c < chunkNumberOf chunkStart → retryView c tr = []).
Proof.
  revert chunkStart fullMarkdown o tr.
  induction fuel as [| fuel IH]; intros chunkStart fullMarkdown o tr;
    rewrite chunkLoop_unfold;
    (destruct (chunkStart <? length imgs);
     [| intros [= <- <-]; split; [exists 0; split; [lia | done] | done]]);
    [done |].
  cbv zeta. unfold runChunk.
  pose proof (attempts_retryView j imgs chunkStart (MAX_RETRIES + 1) 1
                initialChunkState eq_refl) as (k & Hk & _ & Hview).
  pose proof (attempts_retryView_other j imgs chunkStart (MAX_RETRIES + 1) 1
                initialChunkState c) as Hother.
  destruct (attempts j imgs chunkStart (MAX_RETRIES + 1) 1 initialChunkState)
    as [st evs]. cbn [snd] in *.
  assert (Hhere : (∃ k, k ≤ MAX_RETRIES + 1 ∧ retryView c evs = scheduleFrom c 1 k)
                  ∧ (c < chunkNumberOf chunkStart → retryView c evs = [])).
  { destruct (decide (c = chunkNumberOf chunkStart)) as [-> | Hne].
    - split; [eauto | lia].
    - rewrite (Hother Hne). split; [exists 0; split; [lia | done] | done]. }
  destruct (negb (chunkSuccess st)).
  - intros [= <- <-]. rewrite retryView_cons, retryView_app. cbn [isRetryEvent].
    rewrite retryView_cons. cbn [isRetryEvent retryView filter]. rewrite app_nil_r.
    exact Hhere.
  - destruct (chunkLoop j imgs fuel (chunkStart + CHUNK_SIZE) _) as [[o' evs'] |] eqn:Hrest;
      [| done].
    intros [= <- <-]. apply IH in Hrest as [Hsched Hbefore].
    rewrite chunkNumberOf_next in Hbefore.
    rewrite retryView_cons, retryView_app. cbn [isRetryEvent].
    destruct (decide (c = chunkNumberOf chunkStart)) as [-> | Hne].
    + rewrite Hbefore by lia. rewrite app_nil_r. split; [eauto | lia].
    + rewrite (Hother Hne). cbn [app]. split; [done |].
      intros Hlt. apply Hbefore. lia.
Qed.


(** The loop stops at the first chunk whose attempts are all spent. *)
Lemma chunkLoop_exhausted (j : job) (imgs : list string) (k : nat) :
  ∀ (fuel chunkStart : nat) (fullMarkdown : string) (m : option string),
  length imgs - chunkStart ≤ fuel →
  chunkStart + k * CHUNK_SIZE < length imgs →
  (∀ i, i < k → chunkSuccess (runChunk j imgs (chunkStart + i * CHUNK_SIZE)).1 = true) →
  chunkSuccess (runChunk j imgs (chunkStart + k * CHUNK_SIZE)).1 = false →
  lastError (runChunk j imgs (chunkStart + k * CHUNK_SIZE)).1 = m →
  ∃ tr, chunkLoop j imgs fuel chunkStart fullMarkdown =
          Some (Failed (ErrorObject
                  ("Failed to process chunk "
                   +:+ pretty (chunkNumberOf (chunkStart + k * CHUNK_SIZE)) +:+ ": "
                   +:+ default "undefined" m)), tr).
Proof.
  induction k as [| k IH]; intros fuel chunkStart fullMarkdown m Hfuel Hlt Hbefore Hfail Hmsg;
    rewrite chunkLoop_unfold;
    (replace (chunkStart <? length imgs) with true by (symmetry; apply Nat.ltb_lt; lia));
    (destruct fuel as [| fuel]; [lia |]); cbv zeta.
  - cbn [Nat.mul] in *. rewrite Nat.add_0_r in *.
    destruct (runChunk j imgs chunkStart) as [st evs]. cbn [fst] in *.
    rewrite Hfail, Hmsg. cbn [negb]. eauto.
  - pose proof (Hbefore 0 ltac:(lia)) as Hfirst.
    cbn [Nat.mul] in Hfirst. rewrite Nat.add_0_r in Hfirst.
    destruct (runChunk j imgs chunkStart) as [st evs]. cbn [fst] in Hfirst.
    rewrite Hfirst. cbn [negb].
    replace (chunkStart + S k * CHUNK_SIZE)
      with (chunkStart + CHUNK_SIZE + k * CHUNK_SIZE) in * by lia.
    edestruct (IH fuel (chunkStart + CHUNK_SIZE)) as [tr ->]; eauto.
    + unfold CHUNK_SIZE. lia.
    + intros i Hi.
      replace (chunkStart + CHUNK_SIZE + i * CHUNK_SIZE)
        with (chunkStart + S i * CHUNK_SIZE) by lia.
      apply Hbefore. lia.
Qed.

(** Two jobs over the same images whose chunks agree on success and on their
    bodies end the OCR phase alike; they return the same outcome when their
    failed chunks also agree on the last error. *)
Lemma chunkLoop_alike (j1 j2 : job) (imgs : list string) (fuel : nat) :
  (∀ i, i * CHUNK_SIZE < length imgs →
     chunkSuccess (runChunk j1 imgs (i * CHUNK_SIZE)).1
     = chunkSuccess (runChunk j2 imgs (i * CHUNK_SIZE)).1
     ∧ chunkMarkdown (runChunk j1 imgs (i * CHUNK_SIZE)).1
       = chunkMarkdown (runChunk j2 imgs (i * CHUNK_SIZE)).1) →
  ∀ (i0 : nat) (fullMarkdown : string) (o1 : outcome) (tr1 : list event),
  chunkLoop j1 imgs fuel (i0 * CHUNK_SIZE) fullMarkdown = Some (o1, tr1) →
  ∃ o2 tr2, chunkLoop j2 imgs fuel (i0 * CHUNK_SIZE) fullMarkdown = Some (o2, tr2)
            ∧ alike o1 o2
            ∧ ((∀ i, i * CHUNK_SIZE < length imgs →
                  chunkSuccess (runChunk j1 imgs (i * CHUNK_SIZE)).1 = false →
                  lastError (runChunk j1 imgs (i * CHUNK_SIZE)).1
                  = lastError (runChunk j2 imgs (i * CHUNK_SIZE)).1) →
               o1 = o2).
Proof.
  intros Hsame.
  induction fuel as [| fuel IH]; intros i0 fullMarkdown o1 tr1;
    rewrite !chunkLoop_unfold;
    (destruct (i0 * CHUNK_SIZE <? length imgs) eqn:Hlt;
     [| intros [= <- <-]; eexists _, _; split; [done | split; done]]);
    [done |].
  apply Nat.ltb_lt in Hlt.
  cbv zeta. destruct (Hsame i0 Hlt) as [Hs Hm].
  destruct (runChunk j1 imgs (i0 * CHUNK_SIZE)) as [st1 evs1] eqn:E1.
  destruct (runChunk j2 imgs (i0 * CHUNK_SIZE)) as [st2 evs2] eqn:E2.
  cbn [fst] in Hs, Hm. rewrite <- Hs, <- Hm.
  destruct (chunkSuccess st1) eqn:Hsucc; cbn [negb].
  - replace (i0 * CHUNK_SIZE + CHUNK_SIZE) with (S i0 * CHUNK_SIZE) by lia.
    destruct (chunkLoop j1 imgs fuel _ _) as [[o1' evs1'] |] eqn:Hrest; [| done].
    intros [= <- <-]. apply IH in Hrest as (o2 & tr2 & -> & Halike & Heq).
    eexists _, _. split; [done |]. split; done.
  - intros [= <- <-]. eexists _, _. split; [done |]. split; [done |].
    intros Herr. specialize (Herr i0 Hlt). rewrite E1, E2 in Herr.
    cbn [fst] in Herr. by rewrite (Herr Hsucc).
Qed.

(** C3. In every run of the OCR phase, the attempts at a chunk are numbered
    from 1 and number at most [MAX_RETRIES + 1], that is 3; between an attempt
    [a] that failed and the retry [a + 1] the scheduler pauses [1000 * a] ms,
    and it pauses nowhere else. *)
Theorem retry_schedule (j : job) (imgs : list string) (o : outcome)
    (tr : list event) (c : nat) :
  ocrPhase j imgs = Some (o, tr) →
  ∃ k, k ≤ MAX_RETRIES + 1 ∧ retryView c tr = scheduleFrom c 1 k.
Proof. intros Hrun. by apply (chunkLoop_retryView _ _ _ _ _ _ _ c) in Hrun as [? _]. Qed.

(** *** The handler *)

Lemma chunkNumberOf_mul (k : nat) : chunkNumberOf (k * CHUNK_SIZE) = k + 1.
Proof. unfold chunkNumberOf, CHUNK_SIZE. by rewrite Nat.div_mul by lia. Qed.




(** The handler always answers. *)
Lemma POST_total (j : job) : ∃ r, POST j = Some r.
Proof.
  unfold POST. destruct (file j) as [name |]; [| eauto].
  destruct (apiKeyMissing j); [eauto |].
  destruct (pdfLoad j) as [pageCount | e]; [| eauto].
  destruct (conversionFailed _); [eauto |].
  destruct (ocrPhase_total j (images (rasterize j pageCount))) as [[[md | e] tr] ->];
    [| eauto].
  destruct (render j md); eauto.
Qed.

(** C4. When a chunk fails on every one of its [MAX_RETRIES + 1] attempts
    (the chunks before it having succeeded), the handler answers with status
    500 and the message of the error of the last attempt, prefixed by the
    chunk number; the answer carries no document. *)
Theorem chunk_exhaustion_fails_job (j : job) (name : string) (pageCount k : nat)
    (e : thrown) :
  file j = Some name → apiKeyMissing j = false → pdfLoad j = OK pageCount →
  conversionFailed (rasterize j pageCount) = false →
  let imgs := images (rasterize j pageCount) in
  k * CHUNK_SIZE < length imgs →
  (∀ i, i < k → ∃ a rs, 1 ≤ a ≤ MAX_RETRIES + 1
                        ∧ attemptChunk j imgs (i * CHUNK_SIZE) a = OK rs) →
  (∀ a, 1 ≤ a ≤ MAX_RETRIES → ∃ e', attemptChunk j imgs (k * CHUNK_SIZE) a = Throw e') →
  attemptChunk j imgs (k * CHUNK_SIZE) (MAX_RETRIES + 1) = Throw e →
  POST j = Some (JsonError 500
                   ("Failed to process chunk " +:+ pretty (k + 1) +:+ ": "
                    +:+ asErrorMessage e) None).
Proof.
  intros Hfile Hkey Hload Hconv imgs Hk Hbefore Hfail Hlast.
  assert (Hst : (runChunk j imgs (k * CHUNK_SIZE)).1 =
                {| chunkSuccess := false; chunkMarkdown := "";
                   lastError := Some (asErrorMessage e) |}).
  { unfold runChunk. replace (MAX_RETRIES + 1) with (S MAX_RETRIES) by (unfold MAX_RETRIES; lia).
    apply attempts_exhausted.
    - intros i Hi. apply Hfail. lia.
    - by replace (1 + MAX_RETRIES) with (MAX_RETRIES + 1) by lia. }
  destruct (chunkLoop_exhausted j imgs k (length imgs) 0 "" (Some (asErrorMessage e)))
    as [tr Hrun].
  - lia.
  - done.
  - intros i Hi. cbn [Nat.add]. apply attempts_succeeds_any.
    destruct (Hbefore i Hi) as (a & rs & Ha & Hok). exists a, rs. split; [lia | done].
  - cbn [Nat.add]. by rewrite Hst.
  - cbn [Nat.add]. by rewrite Hst.
  - cbn [Nat.add] in Hrun. rewrite chunkNumberOf_mul in Hrun.
    unfold POST. rewrite Hfile, Hkey, Hload, Hconv.
    fold imgs. unfold ocrPhase. rewrite Hrun. reflexivity.
Qed.



End ConvertProps.

(** ** Properties of the assembled document *)

Module AssemblyProps.
Import Convert JSProps ConvertProps Samples.


Lemma sortInsert_byPageNumber (x : pageResult) (a : list pageResult) :
  Sorted pageLe a → Sorted pageLe (JS.sortInsert byPageNumber x a).
Proof.
  induction 1 as [| y a Hs IH Hhd]; [by repeat constructor |].
  cbn [JS.sortInsert]. unfold byPageNumber at 1.
  destruct (Z.ltb_spec (Z.of_nat (pageNumber x) - Z.of_nat (pageNumber y)) 0) as [Hlt | Hge].
  - constructor; [by constructor |]. constructor. unfold pageLe. lia.
  - constructor; [done |].
    destruct a as [| z a]; cbn [JS.sortInsert].
    + constructor. unfold pageLe. lia.
    + destruct (byPageNumber x z <? 0)%Z.
      * constructor. unfold pageLe. lia.
      * constructor. by inversion Hhd.
Qed.

(** Whatever the order of the results, sorting puts them in ascending order
    of page number. *)
Lemma sort_byPageNumber (rs : list pageResult) :
  Sorted pageLe (JS.sort byPageNumber rs) ∧ JS.sort byPageNumber rs ≡ₚ rs.
Proof.
  split; [| apply sort_Permutation].
  unfold JS.sort. generalize (@nil pageResult) (Sorted_nil pageLe).
  induction rs as [| r rs IH]; intros acc Hacc; [done |].
  cbn [foldl]. apply IH. by apply sortInsert_byPageNumber.
Qed.

Lemma sort_consecutive_pages (rs : list pageResult) (first : nat) :
  map pageNumber rs = seq first (length rs) → JS.sort byPageNumber rs = rs.
Proof.
  intros Hpages. apply sort_sorted.
  revert first Hpages. induction rs as [| r rs IH]; intros first Hpages; [constructor |].
  cbn in Hpages. injection Hpages as Hr Hrest.
  constructor; [by apply (IH (S first)) |].
  apply Forall_forall. intros r' Hin.
  assert (Hp : pageNumber r' ∈ seq (S first) (length rs)).
  { rewrite <- Hrest. apply list_elem_of_fmap. by exists r'. }
  apply elem_of_seq in Hp. unfold JS.notAfter, byPageNumber.
  apply Z.ltb_ge. lia.
Qed.

(** *** Joining the page workers of a chunk *)

Lemma firstRejection_None {A} (order : list nat) (settled : list (result A)) :
  firstRejection order settled = None →
  ∀ i e, i ∈ order → settled !! i ≠ Some (Throw e).
Proof.
  induction order as [| k order IH]; intros Hnone i e Hin.
  - by apply elem_of_nil in Hin.
  - cbn [firstRejection] in Hnone.
    apply elem_of_cons in Hin as [-> | Hin].
    + destruct (settled !! k) as [[v | e'] |]; congruence.
    + destruct (settled !! k) as [[v | e'] |]; try done; by apply IH.
Qed.

Lemma firstRejection_allFulfilled {A} (order : list nat) (settled : list (result A)) :
  allFulfilled settled → firstRejection order settled = None.
Proof.
  intros Hall. induction order as [| k order IH]; [done |].
  cbn [firstRejection]. specialize (Hall k).
  destruct (settled !! k) as [[v | e] |]; try done. by destruct (Hall e).
Qed.

Lemma fulfilled_all {A} (settled : list (result A)) :
  allFulfilled settled → settled = map OK (fulfilled settled).
Proof.
  induction settled as [| [v | e] settled IH]; intros Hall; [done | |].
  - cbn [fulfilled map]. f_equal. apply IH. intros i e. apply (Hall (S i) e).
  - by destruct (Hall 0 e).
Qed.

Lemma Promise_all_OK {A} (order : list nat) (settled : list (result A)) (vs : list A) :
  Promise_all order settled = OK vs → allFulfilled settled ∧ settled = map OK vs.
Proof.
  unfold Promise_all.
  destruct (firstRejection _ settled) as [e |] eqn:Hfirst; [done |].
  intros [= <-].
  assert (Hall : allFulfilled settled).
  { intros i e Hi. apply (firstRejection_None _ _ Hfirst i e); [| done].
    apply elem_of_app. right. apply elem_of_seq.
    apply lookup_lt_Some in Hi. lia. }
  split; [done | by apply fulfilled_all].
Qed.

(** The settling order decides at most which error [Promise.all] reports. *)
Lemma Promise_all_order {A} (order1 order2 : list nat) (settled : list (result A)) :
  agree (Promise_all order1 settled) (Promise_all order2 settled).
Proof.
  destruct (Promise_all order1 settled) as [vs | e] eqn:H1.
  - pose proof (Promise_all_OK _ _ _ H1) as [Hall _].
    unfold Promise_all in H1 |- *.
    rewrite (firstRejection_allFulfilled _ _ Hall) in H1.
    rewrite (firstRejection_allFulfilled _ _ Hall). cbn. congruence.
  - destruct (Promise_all order2 settled) as [vs | e'] eqn:H2; [| done].
    apply Promise_all_OK in H2 as [Hall _].
    unfold Promise_all in H1. by rewrite (firstRejection_allFulfilled _ _ Hall) in H1.
Qed.

Lemma attemptChunk_completion (j : job) (c' : nat → nat → list nat)
    (imgs : list string) (chunkStart attempt : nat) :
  agree (attemptChunk j imgs chunkStart attempt)
        (attemptChunk (withOcr j (generateContent j) c') imgs chunkStart attempt).
Proof. apply Promise_all_order. Qed.

Lemma ocrPage_pageNumber (j : job) (path : string) (p a : nat) (r : pageResult) :
  ocrPage j path p a = OK r → pageNumber r = p.
Proof.
  unfold ocrPage. destruct (generateContent j path p a) as [response | e]; [| done].
  destruct (cleanCodeBlock _) as [t | e]; [| done]. by intros [= <-].
Qed.

(** The results of a successful attempt: one per image of the chunk, in the
    order of the images, each from the worker of its page. *)
Lemma attemptChunk_OK (j : job) (imgs : list string) (chunkStart attempt : nat)
    (rs : list pageResult) :
  attemptChunk j imgs chunkStart attempt = OK rs →
  length rs = chunkEndOf imgs chunkStart - chunkStart
  ∧ ∀ i r, rs !! i = Some r →
      ∃ path, imgs !! (chunkStart + i) = Some path
              ∧ ocrPage j path (chunkStart + i + 1) attempt = OK r.
Proof.
  unfold attemptChunk. intros [_ Hsettled]%Promise_all_OK.
  split.
  - apply (f_equal length) in Hsettled.
    rewrite length_imap, length_map in Hsettled. rewrite <- Hsettled.
    unfold slice, chunkEndOf. rewrite length_take, length_drop. lia.
  - intros i r Hr.
    apply (f_equal (λ l, l !! i)) in Hsettled.
    rewrite list_lookup_imap, list_lookup_fmap, Hr in Hsettled. cbn in Hsettled.
    unfold slice in Hsettled.
    destruct (take _ (drop chunkStart imgs) !! i) as [path |] eqn:Hpath; [| done].
    exists path. split.
    + apply lookup_take_Some in Hpath as [Hpath _]. by rewrite lookup_drop in Hpath.
    + by injection Hsettled.
Qed.

Lemma attemptChunk_pages (j : job) (imgs : list string) (chunkStart attempt : nat)
    (rs : list pageResult) :
  attemptChunk j imgs chunkStart attempt = OK rs →
  map pageNumber rs = seq (chunkStart + 1) (length rs).
Proof.
  intros [_ Hrs]%attemptChunk_OK. apply list_eq. intros i.
  change (map pageNumber rs) with (pageNumber <$> rs). rewrite list_lookup_fmap.
  destruct (rs !! i) as [r |] eqn:Hr.
  - destruct (Hrs i r Hr) as (path & _ & Hocr).
    apply ocrPage_pageNumber in Hocr. cbn. rewrite Hocr.
    symmetry. rewrite lookup_seq_lt; [f_equal; lia |]. by apply lookup_lt_Some in Hr.
  - cbn. symmetry. apply lookup_seq_ge. by apply lookup_ge_None in Hr.
Qed.

(** The sort of a successful attempt finds the results already in order. *)
Lemma joinChunk_in_order (j : job) (imgs : list string) (chunkStart attempt : nat)
    (rs : list pageResult) :
  attemptChunk j imgs chunkStart attempt = OK rs →
  joinChunk rs = JS.join SEPARATOR (map text rs).
Proof.
  intros Hok. unfold joinChunk.
  by rewrite (sort_consecutive_pages rs (chunkStart + 1)) by by eapply attemptChunk_pages.
Qed.

(** *** Assembly of the document *)

Lemma chunkLoop_completed (j : job) (imgs : list string) (fuel : nat) :
  ∀ (chunkStart : nat) (fullMarkdown md : string) (tr : list event),
  chunkLoop j imgs fuel chunkStart fullMarkdown = Some (Completed md, tr) →
  ∃ results,
    map pageNumber results = seq (chunkStart + 1) (length imgs - chunkStart)
    ∧ Forall (fromWorker j imgs) results
    ∧ md = fullMarkdown +:+ JS.join SEPARATOR (map text results).
Proof.
  induction fuel as [| fuel IH]; intros chunkStart fullMarkdown md tr;
    rewrite chunkLoop_unfold;
    (destruct (chunkStart <? length imgs) eqn:Hlt;
     [| apply Nat.ltb_ge in Hlt; intros [= <-]; exists [];
        replace (length imgs - chunkStart) with 0 by lia;
        by rewrite string_app_nil_r]);
    [done |].
  apply Nat.ltb_lt in Hlt. cbv zeta.
  pose proof (attempts_success_inv j imgs chunkStart (MAX_RETRIES + 1) 1
                initialChunkState eq_refl) as Hinv.
  unfold runChunk.
  destruct (attempts j imgs chunkStart (MAX_RETRIES + 1) 1 initialChunkState)
    as [st evs]. cbn [fst] in Hinv.
  destruct (chunkSuccess st); cbn [negb]; [| done].
  destruct (Hinv eq_refl) as (i & rs & Hi & Hok & Hmd). rewrite Hmd.
  rewrite (joinChunk_in_order _ _ _ _ _ Hok).
  pose proof (attemptChunk_pages _ _ _ _ _ Hok) as Hpages.
  destruct (attemptChunk_OK _ _ _ _ _ Hok) as [Hlen Hrs].
  destruct (chunkLoop j imgs fuel _ _) as [[o evs'] |] eqn:Hrest; [| done].
  intros [= -> <-]. apply IH in Hrest as (rest & Hrest_pages & Hrest_from & ->).
  exists (rs ++ rest). split; [| split].
  - rewrite map_app, Hpages, Hrest_pages, Hlen.
    unfold chunkEndOf, CHUNK_SIZE.
    destruct (decide (chunkStart + 2 ≤ length imgs)).
    + replace (length imgs - chunkStart) with (2 + (length imgs - (chunkStart + 2))) by lia.
      rewrite (seq_app 2). f_equal; f_equal; lia.
    + replace (length imgs - (chunkStart + 2)) with 0 by lia.
      rewrite app_nil_r. f_equal. lia.
  - apply Forall_app. split; [| done].
    apply Forall_forall. intros r [k Hk]%list_elem_of_lookup.
    destruct (Hrs k r Hk) as (path & Hpath & Hocr).
    pose proof (ocrPage_pageNumber _ _ _ _ _ Hocr) as Hnum.
    exists path, (1 + i). rewrite Hnum.
    replace (chunkStart + k + 1 - 1) with (chunkStart + k) by lia.
    split; [done |]. split; [unfold MAX_RETRIES in *; lia | done].
  - assert (Hne : map text rs ≠ []).
    { intros Hnil. apply (f_equal length) in Hnil. rewrite length_map, Hlen in Hnil.
      unfold chunkEndOf, CHUNK_SIZE in Hnil. cbn in Hnil. lia. }
    destruct (chunkEndOf imgs chunkStart <? length imgs) eqn:Hmore.
    + apply Nat.ltb_lt in Hmore.
      assert (Hne' : map text rest ≠ []).
      { intros Hnil. apply (f_equal length) in Hnil.
        rewrite length_map in Hnil. apply (f_equal length) in Hrest_pages.
        rewrite length_map, length_seq in Hrest_pages.
        unfold chunkEndOf, CHUNK_SIZE in *. cbn in Hnil. lia. }
      rewrite map_app, join_app by done. by rewrite !string_app_assoc.
    + apply Nat.ltb_ge in Hmore.
      assert (rest = []) as ->.
      { apply (f_equal length) in Hrest_pages.
        rewrite length_map, length_seq in Hrest_pages.
        unfold chunkEndOf, CHUNK_SIZE in *. destruct rest; [done |]. cbn in *. lia. }
      by rewrite app_nil_r, string_app_nil_r.
Qed.

(** C1. When the OCR phase of a job completes, the assembled text is the join
    of one text per page, for the pages 1, 2, ... up to the number of images
    in ascending order, each text being what the worker of that page returned
    on one of the attempts; and the same text is assembled whatever the order
    in which the workers of each chunk settle. *)
Theorem assembled_in_page_order (j : job) (imgs : list string) (md : string)
    (tr : list event) :
  ocrPhase j imgs = Some (Completed md, tr) →
  (∃ results,
     map pageNumber results = seq 1 (length imgs)
     ∧ Forall (fromWorker j imgs) results
     ∧ md = JS.join SEPARATOR (map text results))
  ∧ ∀ completion', ∃ tr',
      ocrPhase (withOcr j (generateContent j) completion') imgs = Some (Completed md, tr').
Proof.
  intros Hrun. split.
  - apply chunkLoop_completed in Hrun as (results & Hpages & Hfrom & ->).
    exists results. rewrite Nat.sub_0_r in Hpages. done.
  - intros completion'. unfold ocrPhase in *.
    set (j' := withOcr j (generateContent j) completion').
    assert (Hsame : ∀ i, i * CHUNK_SIZE < length imgs →
              chunkSuccess (runChunk j imgs (i * CHUNK_SIZE)).1
              = chunkSuccess (runChunk j' imgs (i * CHUNK_SIZE)).1
              ∧ chunkMarkdown (runChunk j imgs (i * CHUNK_SIZE)).1
                = chunkMarkdown (runChunk j' imgs (i * CHUNK_SIZE)).1).
    { intros i _. unfold runChunk. apply attempts_agree; [| done | done].
      intros a _. apply attemptChunk_completion. }
    destruct (chunkLoop_alike j j' imgs (length imgs) Hsame 0 "" _ _ Hrun)
      as (o2 & tr2 & Hrun2 & Halike & _).
    destruct o2 as [md2 |]; [| done]. cbn in Halike. subst md2. by exists tr2.
Qed.

End AssemblyProps.

(** ** The scheduler and the handler on sample requests *)

Module Scenarios.
Import Convert JSProps ConvertProps AssemblyProps Samples.

Lemma assembled_in_page_order_witness :
  ∃ results,
    map pageNumber results = [1; 2; 3; 4; 5]
    ∧ sampleMarkdown = JS.join SEPARATOR (map text results).
Proof.
  destruct (assembled_in_page_order (fivePages flaky) sampleImages sampleMarkdown
              sampleTrace) as [(results & Hpages & _ & Hmd) _].
  - vm_compute. reflexivity.
  - exists results. split; [exact Hpages | exact Hmd].
Defined.

Lemma retry_schedule_witness :
  ∃ k, k ≤ MAX_RETRIES + 1
       ∧ retryView 2 sampleTrace = scheduleFrom 2 1 k.
Proof.
  apply (retry_schedule (fivePages flaky) sampleImages (Completed sampleMarkdown)
           sampleTrace 2).
  vm_compute. reflexivity.
Defined.

Lemma chunk_exhaustion_fails_job_witness :
  POST (fivePages refusing) =
    Some (JsonError 500 "Failed to process chunk 2: quota exceeded, attempt 3" None).
Proof.
  apply (chunk_exhaustion_fails_job (fivePages refusing) "scan.pdf" 5 1
           (ErrorObject "quota exceeded, attempt 3")).
  - reflexivity.
  - reflexivity.
  - reflexivity.
  - vm_compute. reflexivity.
  - vm_compute. lia.
  - intros i Hi. assert (i = 0) as -> by lia.
    exists 1. eexists. split; [unfold MAX_RETRIES; lia |]. vm_compute. reflexivity.
  - intros a Ha. unfold MAX_RETRIES in Ha.
    assert (a = 1 ∨ a = 2) as [-> | ->] by lia; eexists; vm_compute; reflexivity.
  - vm_compute. reflexivity.
Defined.


Lemma attempts_no_chunk_event (j : job) (imgs : list string) (chunkStart : nat)
    (remaining attempt : nat) (st : chunkState) :
  filter (λ e, isChunkEvent e) (attempts j imgs chunkStart remaining attempt st).2 = [].
Proof.
  revert attempt st. induction remaining as [| r IH]; intros attempt st; [done |].
  rewrite attempts_S. destruct (attemptChunk j imgs chunkStart attempt) as [rs | e].
  - reflexivity.
  - cbv zeta.
    specialize (IH (attempt + 1) (withLastError st e)).
    destruct (attempts j imgs chunkStart r (attempt + 1) _) as [st' evs].
    cbn [snd] in *.
    rewrite !filter_cons_False by (cbn; tauto).
    rewrite filter_app, IH, app_nil_r.
    destruct (attempt <=? MAX_RETRIES); [| done].
    by rewrite filter_cons_False by (cbn; tauto).
Qed.

(** C8. Five pages are processed as the chunks of pages 1-2, 3-4 and 5, in
    that order, and the document of a job that completes is the three chunk
    bodies with the separator between the first and the second and between
    the second and the third, and nothing after the third. *)
Theorem five_pages_three_chunks (j : job) (p1 p2 p3 p4 p5 md : string)
    (tr : list event) :
  let imgs := [p1; p2; p3; p4; p5] in
  ocrPhase j imgs = Some (Completed md, tr) →
  filter (λ e, isChunkEvent e) tr = [EvChunk 1 1 2; EvChunk 2 3 4; EvChunk 3 5 5]
  ∧ slice imgs 0 (chunkEndOf imgs 0) = [p1; p2]
  ∧ slice imgs 2 (chunkEndOf imgs 2) = [p3; p4]
  ∧ slice imgs 4 (chunkEndOf imgs 4) = [p5]
  ∧ md = chunkMarkdown (runChunk j imgs 0).1 +:+ SEPARATOR
         +:+ chunkMarkdown (runChunk j imgs 2).1 +:+ SEPARATOR
         +:+ chunkMarkdown (runChunk j imgs 4).1.
Proof.
  intros imgs Hrun. unfold ocrPhase in Hrun.
  pose proof (attempts_no_chunk_event j imgs 0 (MAX_RETRIES + 1) 1 initialChunkState) as H1.
  pose proof (attempts_no_chunk_event j imgs 2 (MAX_RETRIES + 1) 1 initialChunkState) as H2.
  pose proof (attempts_no_chunk_event j imgs 4 (MAX_RETRIES + 1) 1 initialChunkState) as H3.
  fold (runChunk j imgs 0) in H1. fold (runChunk j imgs 2) in H2.
  fold (runChunk j imgs 4) in H3.
  change (length imgs) with 5 in Hrun.
  rewrite chunkLoop_unfold in Hrun. change (0 + CHUNK_SIZE) with 2 in Hrun.
  change (0 <? length imgs) with true in Hrun. cbv iota zeta in Hrun.
  destruct (runChunk j imgs 0) as [st1 evs1]. cbn [fst snd] in *.
  destruct (chunkSuccess st1); cbn [negb] in Hrun; [| done].
  rewrite chunkLoop_unfold in Hrun. change (2 + CHUNK_SIZE) with 4 in Hrun.
  change (2 <? length imgs) with true in Hrun. cbv iota zeta in Hrun.
  destruct (runChunk j imgs 2) as [st2 evs2]. cbn [fst snd] in *.
  destruct (chunkSuccess st2); cbn [negb] in Hrun; [| done].
  rewrite chunkLoop_unfold in Hrun. change (4 + CHUNK_SIZE) with 6 in Hrun.
  change (4 <? length imgs) with true in Hrun. cbv iota zeta in Hrun.
  destruct (runChunk j imgs 4) as [st3 evs3]. cbn [fst snd] in *.
  destruct (chunkSuccess st3); cbn [negb] in Hrun; [| done].
  rewrite chunkLoop_unfold in Hrun.
  change (6 <? length imgs) with false in Hrun.
  change (chunkEndOf imgs 0 <? length imgs) with true in Hrun.
  change (chunkEndOf imgs 2 <? length imgs) with true in Hrun.
  change (chunkEndOf imgs 4 <? length imgs) with false in Hrun.
  cbv iota in Hrun. injection Hrun as Hmd Htr.
  split; [| split; [done | split; [done | split; [done |]]]].
  - rewrite <- Htr. rewrite app_nil_r.
    rewrite filter_cons_True, filter_app, H1 by (cbn; tauto).
    rewrite filter_cons_True, filter_app, H2 by (cbn; tauto).
    rewrite filter_cons_True, H3 by (cbn; tauto).
    reflexivity.
  - rewrite <- Hmd. change ("" +:+ chunkMarkdown st1) with (chunkMarkdown st1).
    by rewrite !string_app_assoc.
Qed.

Lemma five_pages_three_chunks_witness :
  filter (λ e, isChunkEvent e) sampleTrace = [EvChunk 1 1 2; EvChunk 2 3 4; EvChunk 3 5 5]
  ∧ sampleMarkdown =
      JS.join SEPARATOR ["text 1"; "text 2"] +:+ SEPARATOR
      +:+ JS.join SEPARATOR ["text 3"; "text 4"] +:+ SEPARATOR
      +:+ "text 5".
Proof.
  destruct (five_pages_three_chunks (fivePages flaky)
              "/app/temp/images/job1.1.png" "/app/temp/images/job1.2.png"
              "/app/temp/images/job1.3.png" "/app/temp/images/job1.4.png"
              "/app/temp/images/job1.5.png" sampleMarkdown sampleTrace)
    as (Hev & _ & _ & _ & Hmd).
  - vm_compute. reflexivity.
  - split; [exact Hev |]. rewrite Hmd. vm_compute. reflexivity.
Defined.

(** C2, at an input where the code departs from it: for a four-page document
    on which pdf2pic is unavailable and [magick] leaves three images, the
    chain accepts the three images of [magick], does not go on to [convert],
    and the handler returns a document made of three pages. *)
Theorem cli_method_accepts_mismatch :
  pdfLoad fourPagesThreeImages = OK 4
  ∧ rasterize fourPagesThreeImages 4 =
      {| images := ["/app/temp/images/job2_00.png"; "/app/temp/images/job2_01.png";
                    "/app/temp/images/job2_02.png"];
         conversionSuccess := true;
         dir := ["job2_00.png"; "job2_01.png"; "job2_02.png"] |}
  ∧ conversionFailed (rasterize fourPagesThreeImages 4) = false
  ∧ POST fourPagesThreeImages =
      Some (Pdf ("%PDF " +:+ JS.join SEPARATOR ["text 1"; "text 2"; "text 3"])
              "converted_scan.pdf").
Proof. repeat split; vm_compute; reflexivity. Qed.

(** *** The code-fence cleanup *)

Lemma split_single (sep : ascii) (s : string) :
  JS.includes s sep = false → JS.split sep s = [s].
Proof.
  induction s as [| c s IH]; [done |]. cbn [JS.includes JS.split].
  destruct (Ascii.eqb c sep); [done |]. cbn [orb]. intros Hs. by rewrite IH.
Qed.

Lemma split_several (sep : ascii) (s : string) :
  JS.includes s sep = true → ∃ a b l, JS.split sep s = a :: b :: l.
Proof.
  induction s as [| c s IH]; [done |]. cbn [JS.includes JS.split].
  destruct (Ascii.eqb c sep); cbn [orb].
  - intros _. destruct s as [| c' s']; [by eexists _, _, _ |].
    destruct (JS.split sep (String c' s')) as [| a l] eqn:Hsplit.
    + cbn [JS.split] in Hsplit. destruct (Ascii.eqb c' sep); [done |].
      by destruct (JS.split sep s').
    + by eexists _, _, _.
  - intros Hs. destruct (IH Hs) as (a & b & l & ->). by eexists _, _, _.
Qed.

(** The cleanup throws exactly on the one-line texts that open a fence. *)
Lemma cleanCodeBlock_throws_iff (text : string) :
  (∃ e, cleanCodeBlock text = Throw e) ↔
    JS.startsWith text FENCE = true ∧ JS.includes text JS.LF = false.
Proof.
  unfold cleanCodeBlock. destruct (JS.startsWith text FENCE).
  - destruct (JS.includes text JS.LF) eqn:Hlf.
    + destruct (split_several _ _ Hlf) as (a & b & l & ->). cbn [tail].
      destruct (last (b :: l)) as [x |] eqn:Hlast.
      * split; [by intros [e ?] | by intros [_ ?]].
      * by apply last_None in Hlast.
    + rewrite (split_single _ _ Hlf). cbn. split; [done | eauto].
  - split; [by intros [e ?] | by intros [? _]].
Qed.

(** C10, at an input where the code departs from it: on the trimmed response
    consisting of a lone code fence, and on any one-line response that opens
    a fence, the cleanup throws instead of returning a string. *)
Theorem lone_fence_throws :
  cleanCodeBlock (JS.trim "```") =
    Throw (ErrorObject "Cannot read properties of undefined (reading 'trim')")
  ∧ cleanCodeBlock (JS.trim " ```markdown ") =
      Throw (ErrorObject "Cannot read properties of undefined (reading 'trim')").
Proof. split; vm_compute; reflexivity. Qed.

(** The thrown error fails every attempt at the chunk, hence the job. *)
Lemma lone_fence_fails_job :
  POST (fivePages fenced) =
    Some (JsonError 500
            "Failed to process chunk 1: Cannot read properties of undefined (reading 'trim')"
            None).
Proof. vm_compute. reflexivity. Qed.

(** A response that opens a fence and has a second line is cleaned. *)
Lemma fenced_block_cleaned :
  cleanCodeBlock (JS.trim ("```markdown" +:+ JS.nl +:+ "# Title" +:+ JS.nl +:+ "```"))
  = OK "# Title".
Proof. vm_compute. reflexivity. Qed.

End Scenarios.

(** ** Further properties of the progress store *)

Module ProgressFacts.
Import Progress ProgressProps Views Samples.

(** X1. A request that [POST] refuses (any answer other than 200) is answered
    with status 400 and leaves the store and the pending timers as they were. *)
Theorem refused_post_changes_nothing (req : request) (w : world) :
  code (POST req w).1 ≠ 200 →
  code (POST req w).1 = 400 ∧ (POST req w).2 = w.
Proof.
  destruct req as [| [id |] [u |]]; cbn; try done.
  destruct (String.eqb id ""); cbn; done.
Qed.

Lemma refused_post_changes_nothing_witness :
  code (POST (Json (Some "") (Some (sampleUpdate "x"))) init).1 = 400
  ∧ (POST (Json (Some "") (Some (sampleUpdate "x"))) init).2 = init.
Proof. apply refused_post_changes_nothing. vm_compute. discriminate. Defined.

(** X2. An update for one job id leaves the record of every other job id,
    and what [GET] answers for it, as they were. *)
Theorem post_leaves_other_jobs (req : request) (w : world) (id' : string) :
  (∀ u, req ≠ Json (Some id') (Some u)) →
  progressStore (POST req w).2 !! id' = progressStore w !! id'
  ∧ GET (Some id') (POST req w).2 = GET (Some id') w.
Proof.
  intros Hother.
  assert (Hstore : progressStore (POST req w).2 !! id' = progressStore w !! id').
  { destruct req as [| [id |] [u |]]; cbn; try done.
    destruct (String.eqb id ""); cbn; [done |].
    apply lookup_insert_ne. intros ->. by apply (Hother u). }
  split; [done |]. unfold GET. by rewrite Hstore.
Qed.

Lemma post_leaves_other_jobs_witness :
  let w := (POST (Json (Some "a") (Some (sampleUpdate "first"))) init).2 in
  progressStore (POST (Json (Some "b") (Some (sampleUpdate "x"))) w).2 !! "a"
  = progressStore w !! "a"
  ∧ GET (Some "a") (POST (Json (Some "b") (Some (sampleUpdate "x"))) w).2 = GET (Some "a") w.
Proof. apply post_leaves_other_jobs. intros u. discriminate. Defined.

Lemma lastSome_snoc {A} (l : list (option A)) (o : option A) :
  lastSome (l ++ [o]) = match o with Some x => Some x | None => lastSome l end.
Proof.
  induction l as [| o' l IH]; cbn [app lastSome]; [by destruct o |].
  rewrite IH. destruct o; [done |]. reflexivity.
Qed.

(** X3. After a sequence of updates for a job id, each field of its record
    holds the value of the most recent update that carried the field, and
    otherwise what it held before (the default when there was no record). *)
Theorem fields_hold_latest_values (w : world) (id : string) (us : list update) :
  id ≠ "" → us ≠ [] →
  let old := default defaults (progressStore w !! id) in
  ∃ p, progressStore (posts id us w) !! id = Some p
       ∧ totalPages p = default (totalPages old) (lastSome (map u_totalPages us))
       ∧ processedPages p = default (processedPages old) (lastSome (map u_processedPages us))
       ∧ currentChunk p = default (currentChunk old) (lastSome (map u_currentChunk us))
       ∧ totalChunks p = default (totalChunks old) (lastSome (map u_totalChunks us))
       ∧ status p = default (status old) (lastSome (map u_status us))
       ∧ log p = match lastSome (map u_log us) with Some l => Some l | None => log old end.
Proof.
  intros Hid. induction us as [| u us IH] using rev_ind; [done |]. intros _ old.
  rewrite posts_snoc, POST_store by done. cbn [progressStore].
  rewrite lookup_insert_eq. eexists. split; [done |].
  rewrite !map_app. cbn [map]. rewrite !lastSome_snoc.
  destruct (decide (us = [])) as [-> | Hne].
  - change (posts id [] w) with w. fold old. cbn.
    by destruct (u_totalPages u), (u_processedPages u), (u_currentChunk u),
                (u_totalChunks u), (u_status u), (u_log u).
  - destruct (IH Hne) as (p & Hp & Htp & Hpp & Hcc & Htc & Hs & Hl).
    rewrite Hp. change (default defaults (Some p)) with p. cbn.
    rewrite Htp, Hpp, Hcc, Htc, Hs, Hl. fold old.
    by destruct (u_totalPages u), (u_processedPages u), (u_currentChunk u),
                (u_totalChunks u), (u_status u), (u_log u).
Qed.

Lemma fields_hold_latest_values_witness :
  ∃ p, progressStore (posts "job" sampleUpdates init) !! "job" = Some p
       ∧ totalPages p = 5 ∧ processedPages p = 0 ∧ log p = Some "line 52".
Proof.
  destruct (fields_hold_latest_values init "job" sampleUpdates)
    as (p & Hp & Htp & Hpp & _ & _ & _ & Hl); [done | done |].
  exists p. split; [exact Hp |]. split; [| split].
  - rewrite Htp. vm_compute. reflexivity.
  - rewrite Hpp. vm_compute. reflexivity.
  - rewrite Hl. vm_compute. reflexivity.
Defined.

Lemma timers_ok_init : timers_ok init.
Proof. intros id p H. cbn in H. by rewrite lookup_empty in H. Qed.

Lemma timers_ok_POST (req : request) (w : world) : timers_ok w → timers_ok (POST req w).2.
Proof.
  intros Hok. destruct req as [| [id |] [u |]]; cbn; try done.
  destruct (String.eqb id ""); [done |].
  intros k p. cbn. rewrite lookup_insert. case_decide as Hk.
  - intros _. subst k. exists (now w + TTL)%N. split; [| lia].
    apply elem_of_app. right. by apply list_elem_of_singleton.
  - intros Hp. destruct (Hok k p Hp) as (d & Hin & Hd).
    exists d. split; [| done]. apply elem_of_app. by left.
Qed.

Lemma timers_ok_advance (t : N) (w : world) : timers_ok w → timers_ok (advance t w).
Proof.
  intros Hok id p. rewrite advance_lookup.
  destruct (decide (id ∈ (filter (due t) (timers w)).*2)) as [Hdue | Hlater]; [done |].
  intros Hp. destruct (Hok id p Hp) as (d & Hin & Hd).
  exists d. cbn [timers now advance]. split; [| lia].
  apply list_elem_of_filter. split; [| done].
  intros Hd'. apply Hlater. apply list_elem_of_fmap. exists (d, id). split; [done |].
  apply list_elem_of_filter. by split.
Qed.

Lemma timers_ok_run (ss : list step) (w : world) : timers_ok w → timers_ok (run ss w).
Proof.
  revert w. induction ss as [| s ss IH]; intros w Hok; [done |].
  apply IH. destruct s; [by apply timers_ok_POST | by apply timers_ok_advance].
Qed.

(** X4. Whatever requests were served, once an hour has passed without a
    further write the store is empty: no record outlives its last write by
    more than the hour. *)
Theorem store_empty_after_an_hour (ss : list step) (t : N) :
  (now (run ss init) + 3600000 ≤ t)%N →
  progressStore (advance t (run ss init)) = ∅.
Proof.
  intros Ht. apply map_eq. intros id. rewrite lookup_empty.
  destruct (progressStore (run ss init) !! id) as [p |] eqn:Hp.
  - destruct (timers_ok_run ss init timers_ok_init id p Hp) as (d & Hin & Hd).
    apply (advance_deleted t d); [done |]. unfold TTL in Hd. lia.
  - rewrite advance_lookup. by case_decide.
Qed.

Lemma store_empty_after_an_hour_witness :
  progressStore
    (advance 5400000
       (run [Post (Json (Some "a") (Some (sampleUpdate "x"))); Tick 1800000;
             Post (Json (Some "b") (Some (sampleUpdate "y")))] init)) = ∅.
Proof. apply store_empty_after_an_hour. vm_compute. discriminate. Defined.

(** X5. In every state the process can reach, by requests and by timers, the
    log window of every record holds only non-empty lines, at most 50. *)
Theorem reachable_logs_clean (ss : list step) (id : string) (p : progress) :
  progressStore (run ss init) !! id = Some p →
  Forall (λ l, l ≠ "") (logs p) ∧ length (logs p) ≤ 50.
Proof. intros Hp. apply (store_ok_run ss init store_ok_init id p Hp). Qed.

Lemma reachable_logs_clean_witness :
  ∃ p, progressStore (run [Post (Json (Some "a") (Some (sampleUpdate "")));
                           Post (Json (Some "a") (Some (sampleUpdate "x")))] init) !! "a"
       = Some p
       ∧ Forall (λ l, l ≠ "") (logs p) ∧ length (logs p) ≤ 50.
Proof.
  eexists. split; [vm_compute; reflexivity |].
  eapply (reachable_logs_clean
            [Post (Json (Some "a") (Some (sampleUpdate "")));
             Post (Json (Some "a") (Some (sampleUpdate "x")))] "a").
  vm_compute. reflexivity.
Defined.

(** X6. An update that carries no log line, or an empty one, leaves the log
    window of the record as it was. *)
Theorem update_without_line_keeps_logs (ss : list step) (id : string) (u : update)
    (p : progress) :
  id ≠ "" → line u = "" →
  progressStore (run ss init) !! id = Some p →
  ∃ p', progressStore (POST (Json (Some id) (Some u)) (run ss init)).2 !! id = Some p'
        ∧ logs p' = logs p.
Proof.
  intros Hid Hline Hp.
  destruct (store_ok_run ss init store_ok_init id p Hp) as [Htruthy Hlen].
  rewrite POST_store by done. cbn [progressStore]. rewrite lookup_insert_eq, Hp.
  eexists. split; [done |]. change (default defaults (Some p)) with p.
  rewrite merge_logs_window by done. rewrite Hline.
  rewrite filter_cons_False, filter_nil, app_nil_r by (unfold JS.truthy; tauto).
  unfold JS.sliceLast. unfold LOG_CAP in *.
  by replace (length (logs p) - 50) with 0 by lia.
Qed.

Lemma update_without_line_keeps_logs_witness :
  ∃ p', progressStore
          (POST (Json (Some "a")
                   (Some {| u_totalPages := None; u_processedPages := Some 2;
                            u_currentChunk := None; u_totalChunks := None;
                            u_status := None; u_log := None |}))
             (run [Post (Json (Some "a") (Some (sampleUpdate "x")))] init)).2 !! "a"
        = Some p'
        ∧ logs p' = ["x"].
Proof.
  destruct (update_without_line_keeps_logs
              [Post (Json (Some "a") (Some (sampleUpdate "x")))] "a"
              {| u_totalPages := None; u_processedPages := Some 2;
                 u_currentChunk := None; u_totalChunks := None;
                 u_status := None; u_log := None |}
              {| totalPages := 5; processedPages := 0; currentChunk := 0;
                 totalChunks := 3; status := "Starting OCR processing...";
                 logs := ["x"]; log := Some "x" |})
    as (p' & Hp' & Hlogs); [done | done | vm_compute; reflexivity |].
  exists p'. split; [exact Hp' | exact Hlogs].
Defined.

End ProgressFacts.

(** ** Further properties of the rasterization chain *)

Module RasterFacts.
Import Convert JSProps RasterProps Views Samples.

Lemma cliMethod_failed (j : job) (r : execResult) (st : raster) :
  succeeded r = false →
  cliMethod j r st =
    if conversionSuccess st then st
    else {| images := []; conversionSuccess := false;
            dir := foldl writeFile (dir st) (written r) |}.
Proof. intros Hr. unfold cliMethod. by rewrite Hr. Qed.

Lemma cliMethod_skipped (j : job) (r : execResult) (st : raster) :
  conversionSuccess st = true → cliMethod j r st = st.
Proof. intros Hst. unfold cliMethod. by rewrite Hst. Qed.

Lemma method5_skipped (j : job) (pageCount : nat) (st : raster) :
  conversionSuccess st = true → method5 j pageCount st = st.
Proof. intros Hst. unfold method5. by rewrite Hst. Qed.

(** X7. When none of the three command-line tools succeeds, a rasterization
    that is accepted has exactly one image per page of the document: the
    library and the browser strategies never pass a partial result on. *)
Theorem exact_count_without_cli (j : job) (pageCount : nat) :
  succeeded (magick j) = false → succeeded (convert j) = false →
  succeeded (gm j) = false →
  conversionSuccess (rasterize j pageCount) = true →
  length (images (rasterize j pageCount)) = pageCount.
Proof.
  intros Hm Hc Hg. unfold rasterize.
  set (st0 := {| images := []; conversionSuccess := false; dir := _ |}).
  pose proof (method1_exact j pageCount st0 eq_refl) as H1.
  destruct (conversionSuccess (method1 j pageCount st0)) eqn:Hflag.
  - rewrite (cliMethod_skipped j (magick j) _ Hflag).
    rewrite (cliMethod_skipped j (convert j) _ Hflag).
    rewrite (cliMethod_skipped j (gm j) _ Hflag).
    rewrite (method5_skipped j pageCount _ Hflag).
    intros _. by apply H1.
  - rewrite (cliMethod_failed j (magick j)), Hflag by done.
    rewrite (cliMethod_failed j (convert j)) by done. cbn [conversionSuccess].
    rewrite (cliMethod_failed j (gm j)) by done. cbn [conversionSuccess].
    apply method5_exact. reflexivity.
Qed.

Lemma exact_count_without_cli_witness :
  length (images (rasterize (fivePages reliable) 5)) = 5.
Proof. apply exact_count_without_cli; vm_compute; reflexivity. Defined.

Lemma pdf2picPages_all_data (j : job) (pages : list nat) (st : raster) :
  (∀ i, i ∈ pages → pdf2pic j i = P2PData) →
  images (pdf2picPages j pages st).1
  = images st ++ map (λ i, joinPath j (imagesDir j) (pageImageName j i)) pages
  ∧ (pdf2picPages j pages st).2 = true.
Proof.
  revert st. induction pages as [| i pages IH]; intros st Hdata.
  - cbn. by rewrite app_nil_r.
  - cbn [pdf2picPages]. rewrite (Hdata i) by left.
    destruct (IH {| images := images st ++ [joinPath j (imagesDir j)
                                              (fileId j +:+ "." +:+ pretty i +:+ ".png")];
                    conversionSuccess := conversionSuccess st;
                    dir := writeFile (dir st) (fileId j +:+ "." +:+ pretty i +:+ ".png") |})
      as [Himgs Hfin]; [intros k Hk; apply Hdata; by right |].
    rewrite Himgs, Hfin. cbn [images map]. by rewrite <- app_assoc.
Qed.

(** X8. When pdf2pic loads and returns data for every page, its images are
    the result, one per page in page order, whatever the command-line tools
    and the browser would have done: the first strategy that succeeds ends
    the chain. *)
Theorem pdf2pic_success_ends_chain (j : job) (pageCount : nat) :
  pdf2picLoad j = true →
  (∀ i, 1 ≤ i ≤ pageCount → pdf2pic j i = P2PData) →
  conversionSuccess (rasterize j pageCount) = true
  ∧ images (rasterize j pageCount)
    = map (λ i, joinPath j (imagesDir j) (pageImageName j i)) (seq 1 pageCount).
Proof.
  intros Hload Hdata. unfold rasterize.
  set (st0 := {| images := []; conversionSuccess := false; dir := _ |}).
  assert (H1 : conversionSuccess (method1 j pageCount st0) = true
               ∧ images (method1 j pageCount st0)
                 = map (λ i, joinPath j (imagesDir j) (pageImageName j i))
                       (seq 1 pageCount)).
  { unfold method1. rewrite Hload.
    destruct (pdf2picPages_all_data j (seq 1 pageCount) st0) as [Himgs Hfin].
    { intros i Hi%elem_of_seq. apply Hdata. lia. }
    destruct (pdf2picPages j (seq 1 pageCount) st0) as [st' finished].
    cbn [fst snd] in *. subst finished. cbn [andb].
    assert (Hlen : length (images st') = pageCount)
      by (rewrite Himgs; cbn; by rewrite length_map, length_seq).
    rewrite Hlen, Nat.eqb_refl. done. }
  destruct H1 as [Hflag Himgs].
  rewrite (cliMethod_skipped j (magick j) _ Hflag).
  rewrite (cliMethod_skipped j (convert j) _ Hflag).
  rewrite (cliMethod_skipped j (gm j) _ Hflag).
  rewrite (method5_skipped j pageCount _ Hflag).
  done.
Qed.

Lemma pdf2pic_success_ends_chain_witness :
  conversionSuccess (rasterize (fivePages reliable) 5) = true
  ∧ images (rasterize (fivePages reliable) 5)
    = map (λ i, joinPath (fivePages reliable) (imagesDir (fivePages reliable))
                  (pageImageName (fivePages reliable) i)) (seq 1 5).
Proof. apply pdf2pic_success_ends_chain; [reflexivity | intros i Hi; reflexivity]. Defined.

(** X9. A command-line strategy is accepted exactly when its command
    succeeds and the images directory then holds at least one image of the
    job; the number of images is not compared with the number of pages. *)
Theorem cli_accepted_iff_any_image (j : job) (r : execResult) (st : raster) :
  conversionSuccess st = false →
  conversionSuccess (cliMethod j r st) = true ↔
    succeeded r = true
    ∧ ∃ f, f ∈ foldl writeFile (dir st) (written r) ∧ ownImage j f = true.
Proof.
  intros Hst. rewrite (cliMethod_accepts j r st Hst).
  split; intros [Hr Hfiles]; (split; [done |]).
  - destruct (filter _ _) as [| f fs] eqn:Hfilter; [done |].
    exists f. assert (Hin : f ∈ f :: fs) by left.
    rewrite <- Hfilter in Hin. apply list_elem_of_filter in Hin as [Hown Hin].
    split; [done |]. by apply Is_true_true.
  - destruct Hfiles as (f & Hin & Hown). intros Hnil.
    assert (Hf : f ∈ filter (λ f, ownImage j f) (foldl writeFile (dir st) (written r))).
    { apply list_elem_of_filter. split; [by apply Is_true_true | done]. }
    rewrite Hnil in Hf. by apply elem_of_nil in Hf.
Qed.

Lemma cli_accepted_iff_any_image_witness :
  conversionSuccess
    (cliMethod fourPagesThreeImages (magick fourPagesThreeImages)
       {| images := []; conversionSuccess := false; dir := [] |}) = true.
Proof.
  apply (cli_accepted_iff_any_image fourPagesThreeImages (magick fourPagesThreeImages)
           {| images := []; conversionSuccess := false; dir := [] |}); [reflexivity |].
  split; [reflexivity |]. exists "job2_00.png". split; [| reflexivity].
  vm_compute. left.
Defined.









(** X11. A document without pages is refused: when no command-line tool
    succeeds, the handler answers a document of zero pages with the
    conversion error, reporting zero images for zero pages. *)
Theorem zero_pages_refused (j : job) (name : string) :
  file j = Some name → apiKeyMissing j = false → pdfLoad j = OK 0 →
  succeeded (magick j) = false → succeeded (convert j) = false →
  succeeded (gm j) = false →
  POST j = Some (JsonError 500 "Failed to convert PDF to images."
                   (Some "Attempted 0 pages, got 0 images")).
Proof.
  intros Hfile Hkey Hload Hm Hc Hg.
  assert (Himgs : images (rasterize j 0) = []).
  { unfold rasterize, method1, method5.
    rewrite !cliMethod_failed by done. cbn [seq pdf2picPages puppeteerPages].
    destruct (pdf2picLoad j); cbn; [done |].
    by destruct (puppeteerLaunch j); cbn; [destruct (browserClose j) |]. }
  unfold POST. rewrite Hfile, Hkey, Hload. unfold conversionFailed.
  rewrite Himgs. cbn [length Nat.eqb]. rewrite orb_true_r. reflexivity.
Qed.

Lemma zero_pages_refused_witness :
  POST MoreSamples.noPages =
    Some (JsonError 500 "Failed to convert PDF to images."
            (Some "Attempted 0 pages, got 0 images")).
Proof. apply (zero_pages_refused MoreSamples.noPages "empty.pdf"); reflexivity. Defined.

End RasterFacts.

(** ** Further properties of the code-fence cleanup *)

Module CleanupFacts.
Import Convert JSProps Scenarios Views.

Lemma nl_app (s : string) : JS.nl +:+ s = String JS.LF s.
Proof. reflexivity. Qed.

Lemma split_nonempty (sep : ascii) (s : string) : ∃ l ls, JS.split sep s = l :: ls.
Proof.
  induction s as [| c s (l & ls & IH)]; [by eexists _, _ |].
  cbn [JS.split]. destruct (Ascii.eqb c sep); [by eexists _, _ |].
  rewrite IH. by eexists _, _.
Qed.

Lemma split_app_sep (sep : ascii) (a b : string) :
  JS.split sep (a +:+ String sep b) = JS.split sep a ++ JS.split sep b.
Proof.
  induction a as [| c a IH].
  - change ("" +:+ String sep b) with (String sep b). cbn [JS.split].
    by rewrite Ascii.eqb_refl.
  - rewrite string_app_cons. cbn [JS.split].
    destruct (Ascii.eqb c sep); rewrite IH; [done |].
    by destruct (split_nonempty sep a) as (l & ls & ->).
Qed.

(** Joining the lines of a text with line feeds gives the text back. *)
Lemma join_split (s : string) : JS.join JS.nl (JS.split JS.LF s) = s.
Proof.
  induction s as [| c s IH]; [done |]. cbn [JS.split].
  destruct (split_nonempty JS.LF s) as (l & ls & Hs). rewrite Hs in IH |- *.
  destruct (Ascii.eqb c JS.LF) eqn:Hc.
  - apply Ascii.eqb_eq in Hc as ->. rewrite join_cons, IH. reflexivity.
  - destruct ls as [| l' ls].
    + cbn in IH |- *. by rewrite IH.
    + rewrite join_cons in IH |- *. by rewrite string_app_cons, IH.
Qed.

Lemma includes_app (a b : string) (c : ascii) :
  JS.includes (a +:+ b) c = JS.includes a c || JS.includes b c.
Proof.
  induction a as [| x a IH]; [done |].
  rewrite string_app_cons. cbn [JS.includes]. rewrite IH. by rewrite orb_assoc.
Qed.

Lemma startsWith_app (p s : string) : JS.startsWith (p +:+ s) p = true.
Proof.
  unfold JS.startsWith. induction p as [| c p IH]; [by destruct s |].
  rewrite string_app_cons. cbn [String.prefix].
  by destruct (ascii_dec c c).
Qed.

(** What the cleanup does with a text of several lines that opens a fence:
    the opening line goes, and so does the last line when it is a fence. *)
Lemma cleanCodeBlock_lines (opening rest : string) (lines : list string) (l : string) :
  JS.includes opening JS.LF = false →
  JS.split JS.LF rest = lines ++ [l] →
  cleanCodeBlock (FENCE +:+ opening +:+ JS.nl +:+ rest) =
    OK (JS.join JS.nl (if String.eqb (JS.trim l) FENCE then lines else lines ++ [l])).
Proof.
  intros Hopening Hrest. unfold cleanCodeBlock.
  rewrite startsWith_app, nl_app, <- string_app_assoc, split_app_sep.
  rewrite split_single by (by rewrite includes_app, Hopening).
  cbn [app tail]. rewrite Hrest, last_snoc.
  destruct (String.eqb (JS.trim l) FENCE); [| done].
  by rewrite removelast_last.
Qed.

(** X12. A response made of an opening fence line, a body and a closing
    fence line is cleaned to the body, whatever the body holds. *)
Theorem fenced_block_gives_body (opening body closing : string) :
  JS.includes opening JS.LF = false →
  JS.includes closing JS.LF = false →
  JS.trim closing = FENCE →
  cleanCodeBlock (FENCE +:+ opening +:+ JS.nl +:+ body +:+ JS.nl +:+ closing) = OK body.
Proof.
  intros Hopening Hclosing Htrim.
  rewrite (cleanCodeBlock_lines opening _ (JS.split JS.LF body) closing Hopening).
  - rewrite Htrim, String.eqb_refl. by rewrite join_split.
  - by rewrite nl_app, split_app_sep, (split_single _ closing).
Qed.

Lemma fenced_block_gives_body_witness :
  cleanCodeBlock (FENCE +:+ "markdown" +:+ JS.nl
                  +:+ ("# Title" +:+ JS.nl +:+ "text") +:+ JS.nl +:+ "```")
  = OK ("# Title" +:+ JS.nl +:+ "text").
Proof. apply fenced_block_gives_body; reflexivity. Defined.

(** X13. A response that opens a fence and never closes it loses its opening
    line only: the rest of the text is returned as it is. *)
Theorem unclosed_fence_loses_first_line (opening rest : string)
    (lines : list string) (l : string) :
  JS.includes opening JS.LF = false →
  JS.split JS.LF rest = lines ++ [l] →
  JS.trim l ≠ FENCE →
  cleanCodeBlock (FENCE +:+ opening +:+ JS.nl +:+ rest) = OK rest.
Proof.
  intros Hopening Hrest Hlast.
  rewrite (cleanCodeBlock_lines opening rest lines l Hopening Hrest).
  apply String.eqb_neq in Hlast. rewrite Hlast, <- Hrest. by rewrite join_split.
Qed.

Lemma unclosed_fence_loses_first_line_witness :
  cleanCodeBlock (FENCE +:+ "json" +:+ JS.nl +:+ ("# Title" +:+ JS.nl +:+ "text"))
  = OK ("# Title" +:+ JS.nl +:+ "text").
Proof.
  apply (unclosed_fence_loses_first_line "json" _ ["# Title"] "text");
    [reflexivity | reflexivity | vm_compute; discriminate].
Defined.

End CleanupFacts.

(** ** Further properties of the chunk scheduler *)

Module SchedulerFacts.
Import Convert JSProps ConvertProps AssemblyProps Scenarios Views Samples.

(** X14. An attempt at a chunk succeeds exactly when the worker of every page
    of the chunk succeeds on that attempt: one failing page fails the whole
    attempt. *)
Theorem attempt_all_or_nothing (j : job) (imgs : list string) (chunkStart attempt : nat) :
  (∃ rs, attemptChunk j imgs chunkStart attempt = OK rs) ↔
  ∀ i path, slice imgs chunkStart (chunkEndOf imgs chunkStart) !! i = Some path →
            ∃ r, ocrPage j path (chunkStart + i + 1) attempt = OK r.
Proof.
  unfold attemptChunk. split.
  - intros [rs [_ Hsettled]%Promise_all_OK] i path Hpath.
    apply (f_equal (λ l, l !! i)) in Hsettled.
    rewrite list_lookup_imap, list_lookup_fmap, Hpath in Hsettled. cbn in Hsettled.
    destruct (rs !! i) as [r |]; [| done]. exists r. by injection Hsettled.
  - intros Hall. unfold Promise_all. rewrite firstRejection_allFulfilled; [eauto |].
    intros i e. rewrite list_lookup_imap.
    destruct (slice imgs chunkStart _ !! i) as [path |] eqn:Hpath; [| done].
    destruct (Hall i path Hpath) as [r Hr]. cbn. by rewrite Hr.
Qed.

Lemma Sorted_pageLe_inv (r : pageResult) (rs : list pageResult) :
  Sorted pageLe (r :: rs) → Forall (pageLe r) rs.
Proof.
  intros Hs. apply Sorted_StronglySorted in Hs.
  - by inversion Hs.
  - intros a b c. unfold pageLe. lia.
Qed.

Lemma sorted_pages_unique (l1 l2 : list pageResult) :
  Sorted pageLe l1 → Sorted pageLe l2 → l1 ≡ₚ l2 → NoDup (map pageNumber l1) → l1 = l2.
Proof.
  revert l2. induction l1 as [| x l1 IH]; intros l2 Hs1 Hs2 Hperm Hnodup.
  - by apply Permutation_nil_l in Hperm.
  - destruct l2 as [| y l2]; [by apply Permutation_nil_r in Hperm |].
    assert (x = y) as ->.
    { assert (Hx : x ∈ y :: l2) by (rewrite <- Hperm; left).
      apply elem_of_cons in Hx as [| Hx]; [done |].
      assert (Hy : y ∈ x :: l1) by (rewrite Hperm; left).
      apply elem_of_cons in Hy as [| Hy]; [done | exfalso].
      pose proof (Sorted_pageLe_inv _ _ Hs1) as H1.
      pose proof (Sorted_pageLe_inv _ _ Hs2) as H2.
      rewrite Forall_forall in H1, H2.
      specialize (H1 y Hy). specialize (H2 x Hx). unfold pageLe in *.
      cbn in Hnodup. apply NoDup_cons in Hnodup as [Hfresh _].
      apply Hfresh. replace (pageNumber x) with (pageNumber y) by lia.
      apply list_elem_of_fmap. by exists y. }
    f_equal. apply IH.
    + by inversion Hs1.
    + by inversion Hs2.
    + by apply Permutation_cons_inv in Hperm.
    + cbn in Hnodup. by apply NoDup_cons in Hnodup as [_ ?].
Qed.

(** X15. The body of a chunk does not depend on the order in which the page
    results are listed: results with distinct page numbers, listed in any two
    orders, are joined into the same text. *)
Theorem chunk_body_any_order (rs rs' : list pageResult) :
  rs ≡ₚ rs' → NoDup (map pageNumber rs) → joinChunk rs = joinChunk rs'.
Proof.
  intros Hperm Hnodup. unfold joinChunk. do 2 f_equal.
  destruct (sort_byPageNumber rs) as [Hs Hp], (sort_byPageNumber rs') as [Hs' Hp'].
  apply sorted_pages_unique; [done | done | by rewrite Hp, Hp' |].
  eapply NoDup_Permutation_proper; [| exact Hnodup].
  by apply fmap_Permutation.
Qed.

Lemma chunk_body_any_order_witness :
  joinChunk [{| pageNumber := 3; text := "c" |}; {| pageNumber := 4; text := "d" |}]
  = joinChunk [{| pageNumber := 4; text := "d" |}; {| pageNumber := 3; text := "c" |}].
Proof.
  apply chunk_body_any_order.
  - apply Permutation_swap.
  - cbn. apply NoDup_cons. split; [| apply NoDup_singleton].
    intros Hin%list_elem_of_singleton. discriminate.
Defined.

(** *** The plan of chunks *)

Lemma totalChunksOf_spec (n i : nat) : i * CHUNK_SIZE < n ↔ i < totalChunksOf n.
Proof.
  unfold totalChunksOf, CHUNK_SIZE. split; intros H.
  - apply (Nat.lt_le_trans _ (i + 1)); [lia |].
    apply Nat.div_le_lower_bound; lia.
  - destruct (decide (i * 2 < n)) as [| Hge]; [done | exfalso].
    assert ((n + 2 - 1) / 2 < i + 1); [| lia].
    apply Nat.Div0.div_lt_upper_bound. lia.
Qed.

Lemma chunkLoop_plan (j : job) (imgs : list string) (fuel : nat) :
  ∀ (i0 : nat) (fullMarkdown md : string) (tr : list event),
  chunkLoop j imgs fuel (i0 * CHUNK_SIZE) fullMarkdown = Some (Completed md, tr) →
  filter (λ e, isChunkEvent e) tr =
    map (λ i, EvChunk (i + 1) (i * CHUNK_SIZE + 1)
                (Nat.min (i * CHUNK_SIZE + CHUNK_SIZE) (length imgs)))
        (seq i0 (totalChunksOf (length imgs) - i0)).
Proof.
  induction fuel as [| fuel IH]; intros i0 fullMarkdown md tr;
    rewrite chunkLoop_unfold;
    (destruct (i0 * CHUNK_SIZE <? length imgs) eqn:Hlt;
     [| apply Nat.ltb_ge in Hlt; intros [= <- <-];
        assert (¬ i0 < totalChunksOf (length imgs))
          by (rewrite <- totalChunksOf_spec; lia);
        by replace (totalChunksOf (length imgs) - i0) with 0 by lia]);
    [done |].
  apply Nat.ltb_lt in Hlt. cbv zeta.
  pose proof (attempts_no_chunk_event j imgs (i0 * CHUNK_SIZE) (MAX_RETRIES + 1) 1
                initialChunkState) as Hnone.
  fold (runChunk j imgs (i0 * CHUNK_SIZE)) in Hnone.
  destruct (runChunk j imgs (i0 * CHUNK_SIZE)) as [st evs]. cbn [snd] in Hnone.
  destruct (negb (chunkSuccess st)); [done |].
  replace (i0 * CHUNK_SIZE + CHUNK_SIZE) with (S i0 * CHUNK_SIZE) by lia.
  destruct (chunkLoop j imgs fuel _ _) as [[o evs'] |] eqn:Hrest; [| done].
  intros [= -> <-]. apply IH in Hrest.
  apply totalChunksOf_spec in Hlt.
  replace (totalChunksOf (length imgs) - i0)
    with (S (totalChunksOf (length imgs) - S i0)) by lia.
  cbn [seq map]. rewrite filter_cons_True, filter_app, Hnone, Hrest by (cbn; tauto).
  cbn [app]. f_equal. rewrite chunkNumberOf_mul. unfold chunkEndOf. f_equal; lia.
Qed.

(** X16. A job whose OCR phase completes went through the chunks of pages
    1-2, 3-4, ... in that order: chunk [k] starts at page [2k - 1] and ends at
    page [2k] or at the last page, and there are [ceil (n / 2)] chunks for [n]
    pages. *)
Theorem chunks_follow_the_plan (j : job) (imgs : list string) (md : string)
    (tr : list event) :
  ocrPhase j imgs = Some (Completed md, tr) →
  filter (λ e, isChunkEvent e) tr = chunkPlan (length imgs).
Proof.
  intros Hrun. apply (chunkLoop_plan j imgs (length imgs) 0) in Hrun.
  by rewrite Nat.sub_0_r in Hrun.
Qed.

Lemma chunks_follow_the_plan_witness :
  filter (λ e, isChunkEvent e) sampleTrace = [EvChunk 1 1 2; EvChunk 2 3 4; EvChunk 3 5 5].
Proof.
  apply (chunks_follow_the_plan (fivePages flaky) sampleImages sampleMarkdown sampleTrace).
  vm_compute. reflexivity.
Defined.

(** *** Failure of a chunk *)

Lemma attempts_eventChunk (j : job) (imgs : list string) (chunkStart : nat)
    (remaining attempt : nat) (st : chunkState) :
  Forall (λ e, eventChunk e = chunkNumberOf chunkStart)
    (attempts j imgs chunkStart remaining attempt st).2.
Proof.
  revert attempt st. induction remaining as [| r IH]; intros attempt st; [constructor |].
  rewrite attempts_S. destruct (attemptChunk j imgs chunkStart attempt) as [rs | e].
  - by repeat constructor.
  - cbv zeta. specialize (IH (attempt + 1) (withLastError st e)).
    destruct (attempts j imgs chunkStart r (attempt + 1) _) as [st' evs]. cbn [snd] in *.
    repeat (constructor; [done |]). apply Forall_app. split; [| done].
    destruct (attempt <=? MAX_RETRIES); by repeat constructor.
Qed.

Lemma attempts_last_failure (j : job) (imgs : list string) (chunkStart : nat)
    (remaining attempt : nat) (st : chunkState) :
  attempt + remaining = MAX_RETRIES + 2 → 0 < remaining →
  chunkSuccess (attempts j imgs chunkStart remaining attempt st).1 = false →
  ∃ m, lastError (attempts j imgs chunkStart remaining attempt st).1 = Some m
       ∧ EvFailed (chunkNumberOf chunkStart) (MAX_RETRIES + 1) m
         ∈ (attempts j imgs chunkStart remaining attempt st).2.
Proof.
  revert attempt st. induction remaining as [| r IH]; intros attempt st Hsum Hpos; [lia |].
  rewrite attempts_S. destruct (attemptChunk j imgs chunkStart attempt) as [rs | e]; [done |].
  cbv zeta. destruct r as [| r].
  - cbn [attempts fst snd]. intros _. exists (asErrorMessage e). split; [done |].
    replace attempt with (MAX_RETRIES + 1) by lia. right. left.
  - specialize (IH (attempt + 1) (withLastError st e) ltac:(lia) ltac:(lia)).
    destruct (attempts j imgs chunkStart (S r) (attempt + 1) _) as [st' evs].
    cbn [fst snd] in *. intros Hfail. destruct (IH Hfail) as (m & Hm & Hin).
    exists m. split; [done |]. right. right. apply elem_of_app. by right.
Qed.

Lemma chunkLoop_failed (j : job) (imgs : list string) (fuel : nat) :
  ∀ (i0 : nat) (fullMarkdown : string) (e : thrown) (tr : list event),
  chunkLoop j imgs fuel (i0 * CHUNK_SIZE) fullMarkdown = Some (Failed e, tr) →
  ∃ c m, i0 < c ≤ totalChunksOf (length imgs)
         ∧ e = ErrorObject ("Failed to process chunk " +:+ pretty c +:+ ": " +:+ m)
         ∧ last tr = Some (EvExhausted c)
         ∧ EvFailed c (MAX_RETRIES + 1) m ∈ tr
         ∧ Forall (λ ev, eventChunk ev ≤ c) tr.
Proof.
  induction fuel as [| fuel IH]; intros i0 fullMarkdown e tr;
    rewrite chunkLoop_unfold;
    (destruct (i0 * CHUNK_SIZE <? length imgs) eqn:Hlt; [| done]); [done |].
  apply Nat.ltb_lt in Hlt. cbv zeta.
  pose proof (attempts_eventChunk j imgs (i0 * CHUNK_SIZE) (MAX_RETRIES + 1) 1
                initialChunkState) as Hchunk.
  pose proof (attempts_last_failure j imgs (i0 * CHUNK_SIZE) (MAX_RETRIES + 1) 1
                initialChunkState eq_refl ltac:(unfold MAX_RETRIES; lia)) as Hlast.
  fold (runChunk j imgs (i0 * CHUNK_SIZE)) in Hchunk, Hlast.
  destruct (runChunk j imgs (i0 * CHUNK_SIZE)) as [st evs]. cbn [fst snd] in *.
  rewrite chunkNumberOf_mul in *. apply totalChunksOf_spec in Hlt.
  destruct (chunkSuccess st) eqn:Hsucc; cbn [negb].
  - replace (i0 * CHUNK_SIZE + CHUNK_SIZE) with (S i0 * CHUNK_SIZE) by lia.
    destruct (chunkLoop j imgs fuel _ _) as [[o evs'] |] eqn:Hrest; [| done].
    intros [= -> <-]. apply IH in Hrest as (c & m & Hc & -> & Hend & Hin & Hall).
    exists c, m. split; [lia |]. split; [done |]. rewrite app_comm_cons.
    split; [| split].
    + rewrite last_app, Hend. done.
    + apply elem_of_app. by right.
    + apply Forall_app. split; [| done]. constructor; [cbn; lia |].
      eapply Forall_impl; [exact Hchunk |]. cbn. intros ev ->. lia.
  - intros [= <- <-]. destruct (Hlast eq_refl) as (m & Hm & Hin).
    exists (i0 + 1), m. rewrite Hm. split; [lia |]. split; [done |].
    rewrite app_comm_cons. split; [| split].
    + by rewrite last_snoc.
    + apply elem_of_app. left. by right.
    + apply Forall_app. split; [| by repeat constructor]. constructor; [cbn; lia |].
      eapply Forall_impl; [exact Hchunk |]. cbn. intros ev ->. lia.
Qed.

(** X17. A job whose OCR phase fails stopped at the chunk that spent its
    last attempt: the error names that chunk and carries the message of its
    last failed attempt, the exhaustion of the chunk is the last thing that
    happened, and no later chunk was started. *)
Theorem failure_stops_the_job (j : job) (imgs : list string) (e : thrown)
    (tr : list event) :
  ocrPhase j imgs = Some (Failed e, tr) →
  ∃ c m, 1 ≤ c ≤ totalChunksOf (length imgs)
         ∧ e = ErrorObject ("Failed to process chunk " +:+ pretty c +:+ ": " +:+ m)
         ∧ last tr = Some (EvExhausted c)
         ∧ EvFailed c (MAX_RETRIES + 1) m ∈ tr
         ∧ Forall (λ ev, eventChunk ev ≤ c) tr.
Proof.
  intros Hrun. apply (chunkLoop_failed j imgs (length imgs) 0) in Hrun
    as (c & m & Hc & Hrest).
  exists c, m. split; [lia | done].
Qed.

Lemma failure_stops_the_job_witness :
  ∃ c m, 1 ≤ c ≤ 3
         ∧ ErrorObject "Failed to process chunk 2: quota exceeded, attempt 3"
           = ErrorObject ("Failed to process chunk " +:+ pretty c +:+ ": " +:+ m).
Proof.
  destruct (failure_stops_the_job (fivePages refusing)
              (images (rasterize (fivePages refusing) 5))
              (ErrorObject "Failed to process chunk 2: quota exceeded, attempt 3")
              [EvChunk 1 1 2; EvAttempt 1 1; EvCompleted 1 2; EvChunk 2 3 4;
               EvAttempt 2 1; EvFailed 2 1 "quota exceeded, attempt 1"; EvSleep 2 1000;
               EvAttempt 2 2; EvFailed 2 2 "quota exceeded, attempt 2"; EvSleep 2 2000;
               EvAttempt 2 3; EvFailed 2 3 "quota exceeded, attempt 3"; EvExhausted 2])
    as (c & m & Hc & He & _).
  - vm_compute. reflexivity.
  - exists c, m. split; [exact Hc | exact He].
Defined.

(** *** Bounds on the work of a run *)

Lemma attemptCount_app (tr1 tr2 : list event) :
  attemptCount (tr1 ++ tr2) = attemptCount tr1 + attemptCount tr2.
Proof. unfold attemptCount. by rewrite filter_app, length_app. Qed.

Lemma totalPause_app (tr1 tr2 : list event) :
  totalPause (tr1 ++ tr2) = totalPause tr1 + totalPause tr2.
Proof. apply sum_list_with_app. Qed.

Lemma totalPause_cons (e : event) (tr : list event) :
  totalPause (e :: tr) = pauseOf e + totalPause tr.
Proof. reflexivity. Qed.

Lemma attemptCount_cons (e : event) (tr : list event) :
  attemptCount (e :: tr) = (if isAttemptEvent e then 1 else 0) + attemptCount tr.
Proof.
  unfold attemptCount. rewrite filter_cons.
  destruct (isAttemptEvent e); by case_decide.
Qed.







(** *** A service that answers at once *)

Lemma allFulfilled_OK {A} (vs : list A) : allFulfilled (map OK vs).
Proof.
  intros i e. change (map OK vs) with (OK <$> vs). rewrite list_lookup_fmap.
  by destruct (vs !! i).
Qed.

Lemma fulfilled_OK {A} (vs : list A) : fulfilled (map OK vs) = vs.
Proof. induction vs as [| v vs IH]; [done |]. cbn. by rewrite IH. Qed.

Lemma Promise_all_fulfilled {A} (order : list nat) (vs : list A) :
  Promise_all order (map OK vs) = OK vs.
Proof.
  unfold Promise_all.
  by rewrite (firstRejection_allFulfilled _ _ (allFulfilled_OK vs)), fulfilled_OK.
Qed.

Lemma firstAnswers_slice (j : job) (imgs : list string) (chunkStart chunkEnd : nat) :
  imap (λ index imagePath, ocrPage j imagePath (chunkStart + index + 1) 1)
       (slice imgs chunkStart chunkEnd)
  = slice (firstAnswers j imgs) chunkStart chunkEnd.
Proof.
  unfold slice, firstAnswers. apply list_eq. intros i.
  rewrite list_lookup_imap.
  destruct (decide (i < chunkEnd - chunkStart)) as [Hi | Hi].
  - rewrite !lookup_take_lt, !lookup_drop by done. rewrite list_lookup_imap.
    by destruct (imgs !! (chunkStart + i)).
  - by rewrite !lookup_take_ge by lia.
Qed.

Lemma runChunk_first_try (j : job) (imgs : list string) (chunkStart : nat)
    (rs : list pageResult) :
  attemptChunk j imgs chunkStart 1 = OK rs →
  runChunk j imgs chunkStart =
    ({| chunkSuccess := true; chunkMarkdown := JS.join SEPARATOR (map text rs);
        lastError := None |},
     [EvAttempt (chunkNumberOf chunkStart) 1;
      EvCompleted (chunkNumberOf chunkStart) (chunkEndOf imgs chunkStart)]).
Proof.
  intros Hok. unfold runChunk. change (MAX_RETRIES + 1) with (S MAX_RETRIES).
  rewrite attempts_S, Hok. by rewrite (joinChunk_in_order _ _ _ _ _ Hok).
Qed.

Lemma chunkLoop_first_try (j : job) (imgs : list string) (results : list pageResult) :
  firstAnswers j imgs = map OK results →
  ∀ (fuel i0 : nat) (fullMarkdown : string),
  length imgs - i0 * CHUNK_SIZE ≤ fuel →
  ∃ tr, chunkLoop j imgs fuel (i0 * CHUNK_SIZE) fullMarkdown =
          Some (Completed (fullMarkdown
                           +:+ JS.join SEPARATOR (map text (drop (i0 * CHUNK_SIZE) results))),
                tr)
        ∧ attemptCount tr = totalChunksOf (length imgs) - i0
        ∧ totalPause tr = 0.
Proof.
  intros Hall.
  assert (Hlen : length results = length imgs).
  { apply (f_equal length) in Hall. unfold firstAnswers in Hall.
    by rewrite length_imap, length_map in Hall. }
  assert (Hexit : ∀ (i0 : nat) (fullMarkdown : string),
            length imgs ≤ i0 * CHUNK_SIZE →
            ∃ tr, Some (Completed fullMarkdown, @nil event) =
                    Some (Completed (fullMarkdown
                            +:+ JS.join SEPARATOR (map text (drop (i0 * CHUNK_SIZE) results))),
                          tr)
                  ∧ attemptCount tr = totalChunksOf (length imgs) - i0
                  ∧ totalPause tr = 0).
  { intros i0 fullMarkdown Hge. exists []. split; [| split; [| done]].
    - rewrite drop_ge by lia. cbn [map]. by rewrite string_app_nil_r.
    - assert (¬ i0 < totalChunksOf (length imgs))
        by (rewrite <- totalChunksOf_spec; lia).
      change (attemptCount []) with 0. lia. }
  induction fuel as [| fuel IH]; intros i0 fullMarkdown Hfuel;
    rewrite chunkLoop_unfold;
    (destruct (i0 * CHUNK_SIZE <? length imgs) eqn:Hlt;
     [| apply Nat.ltb_ge in Hlt; by apply Hexit]);
    [apply Nat.ltb_lt in Hlt; lia |].
  apply Nat.ltb_lt in Hlt. cbv zeta.
  set (cs := i0 * CHUNK_SIZE) in *.
  assert (Hok : attemptChunk j imgs cs 1 = OK (slice results cs (chunkEndOf imgs cs))).
  { unfold attemptChunk. rewrite firstAnswers_slice, Hall. unfold slice.
    change (map OK results) with (OK <$> results).
    rewrite <- fmap_drop, <- fmap_take. apply Promise_all_fulfilled. }
  rewrite (runChunk_first_try _ _ _ _ Hok). cbn [negb chunkSuccess chunkMarkdown].
  replace (cs + CHUNK_SIZE) with (S i0 * CHUNK_SIZE) by (unfold cs; lia).
  edestruct (IH (S i0)) as (tr & -> & Hcount & Hpause); [unfold CHUNK_SIZE in *; lia |].
  eexists. split; [| split].
  - do 2 f_equal.
    assert (Hsplit : drop cs results
                     = slice results cs (chunkEndOf imgs cs) ++ drop (S i0 * CHUNK_SIZE) results).
    { unfold slice. rewrite <- (take_drop (chunkEndOf imgs cs - cs) (drop cs results)) at 1.
      f_equal. rewrite drop_drop. unfold chunkEndOf, cs, CHUNK_SIZE.
      destruct (decide (i0 * 2 + 2 ≤ length imgs)).
      - f_equal. lia.
      - rewrite !drop_ge by lia. done. }
    assert (Hne : map text (slice results cs (chunkEndOf imgs cs)) ≠ []).
    { intros Hnil. apply (f_equal length) in Hnil.
      unfold slice in Hnil. rewrite length_map, length_take, length_drop in Hnil.
      unfold chunkEndOf, CHUNK_SIZE in Hnil. cbn in Hnil. lia. }
    rewrite Hsplit, map_app.
    destruct (chunkEndOf imgs cs <? length imgs) eqn:Hmore.
    + apply Nat.ltb_lt in Hmore.
      assert (Hne' : map text (drop (S i0 * CHUNK_SIZE) results) ≠ []).
      { intros Hnil. apply (f_equal length) in Hnil.
        rewrite length_map, length_drop in Hnil.
        unfold chunkEndOf, cs, CHUNK_SIZE in *. cbn in Hnil. lia. }
      rewrite join_app by done. by rewrite !string_app_assoc.
    + apply Nat.ltb_ge in Hmore.
      rewrite (drop_ge results (S i0 * CHUNK_SIZE))
        by (unfold chunkEndOf, cs, CHUNK_SIZE in *; lia).
      cbn [map]. by rewrite app_nil_r, !string_app_nil_r.
  - rewrite attemptCount_app, !attemptCount_cons, Hcount.
    cbn [isAttemptEvent]. change (attemptCount []) with 0.
    apply totalChunksOf_spec in Hlt. lia.
  - rewrite totalPause_app, !totalPause_cons, Hpause. reflexivity.
Qed.

(** X19. When the worker of every page succeeds on its first call, the OCR
    phase completes with the texts of these first answers joined in page
    order, after one attempt per chunk and without any pause. *)
Theorem first_try_success (j : job) (imgs : list string) :
  allFulfilled (firstAnswers j imgs) →
  ∃ tr, ocrPhase j imgs =
          Some (Completed (JS.join SEPARATOR (map text (fulfilled (firstAnswers j imgs)))), tr)
        ∧ attemptCount tr = totalChunksOf (length imgs)
        ∧ totalPause tr = 0.
Proof.
  intros Hall%fulfilled_all.
  destruct (chunkLoop_first_try j imgs _ Hall (length imgs) 0 "") as (tr & Hrun & Hc & Hp);
    [lia |].
  exists tr. rewrite Nat.sub_0_r in Hc. done.
Qed.

Lemma first_try_success_witness :
  ∃ tr, ocrPhase (fivePages reliable) sampleImages =
          Some (Completed (JS.join SEPARATOR ["text 1"; "text 2"; "text 3"; "text 4"; "text 5"]),
                tr)
        ∧ attemptCount tr = 3 ∧ totalPause tr = 0.
Proof.
  apply (first_try_success (fivePages reliable) sampleImages).
  assert (Hfirst : firstAnswers (fivePages reliable) sampleImages
                   = map OK (fulfilled (firstAnswers (fivePages reliable) sampleImages)))
    by (vm_compute; reflexivity).
  rewrite Hfirst. apply allFulfilled_OK.
Defined.

End SchedulerFacts.

(** ** Further properties of the handler *)

Module HandlerFacts.
Import Convert JSProps ConvertProps AssemblyProps Views Samples.

(** X20. The handler returns a document only for a request that went through
    every stage: the file is named, the document loaded, and the bytes are
    the rendering of the text of every page in ascending page order, each
    text returned by the worker of its page. The file name is the name of
    the upload prefixed with "converted_". *)
Theorem pdf_only_for_complete_document (j : job) (bytes filename : string) :
  POST j = Some (Pdf bytes filename) →
  ∃ name pageCount results,
    file j = Some name ∧ filename = "converted_" +:+ name
    ∧ pdfLoad j = OK pageCount
    ∧ images (rasterize j pageCount) ≠ []
    ∧ map pageNumber results = seq 1 (length (images (rasterize j pageCount)))
    ∧ Forall (fromWorker j (images (rasterize j pageCount))) results
    ∧ render j (JS.join SEPARATOR (map text results)) = OK bytes.
Proof.
  unfold POST. destruct (file j) as [name |]; [| done].
  destruct (apiKeyMissing j); [done |].
  destruct (pdfLoad j) as [pageCount | e]; [| done].
  destruct (conversionFailed (rasterize j pageCount)) eqn:Hconv; [done |].
  destruct (ocrPhase j _) as [[[md | e] tr] |] eqn:Hrun; [| done | done].
  destruct (render j md) as [b | e] eqn:Hrender; [| done].
  intros [= -> <-].
  apply chunkLoop_completed in Hrun as (results & Hpages & Hfrom & ->).
  rewrite Nat.sub_0_r in Hpages.
  exists name, pageCount, results. repeat (split; [done |]).
  split; [| done].
  unfold conversionFailed in Hconv. apply orb_false_elim in Hconv as [_ Hlen].
  intros Hnil. by rewrite Hnil in Hlen.
Qed.

Lemma pdf_only_for_complete_document_witness :
  ∃ name pageCount results,
    file (fivePages flaky) = Some name ∧ "converted_scan.pdf" = "converted_" +:+ name
    ∧ pdfLoad (fivePages flaky) = OK pageCount
    ∧ images (rasterize (fivePages flaky) pageCount) ≠ []
    ∧ map pageNumber results
      = seq 1 (length (images (rasterize (fivePages flaky) pageCount)))
    ∧ Forall (fromWorker (fivePages flaky) (images (rasterize (fivePages flaky) pageCount)))
        results
    ∧ render (fivePages flaky) (JS.join SEPARATOR (map text results))
      = OK ("%PDF " +:+ sampleMarkdown).
Proof.
  apply (pdf_only_for_complete_document (fivePages flaky)).
  vm_compute. reflexivity.
Defined.

Lemma trimStart_blank (s : string) : allWhiteSpace s = true → JS.trimStart s = "".
Proof.
  induction s as [| c s IH]; [done |]. cbn [allWhiteSpace JS.trimStart].
  intros [Hc Hs]%andb_true_iff. rewrite Hc. by apply IH.
Qed.

(** X21. A request made without an API key, or with a key made of blanks
    only, is answered with the configuration error, whatever the document. *)
Theorem blank_api_key_refused (j : job) (name : string) :
  file j = Some name →
  (∀ k, apiKey j = Some k → allWhiteSpace k = true) →
  POST j = Some (JsonError 500 "GEMINI_API_KEY is not configured in .env file." None).
Proof.
  intros Hfile Hkey. unfold POST. rewrite Hfile.
  assert (apiKeyMissing j = true) as ->; [| done].
  unfold apiKeyMissing. destruct (apiKey j) as [k |]; [| done].
  unfold JS.trim. rewrite (trimStart_blank k) by by apply Hkey.
  cbn. by rewrite orb_true_r.
Qed.

Lemma blank_api_key_refused_witness :
  POST MoreSamples.blankKey =
    Some (JsonError 500 "GEMINI_API_KEY is not configured in .env file." None).
Proof.
  apply (blank_api_key_refused MoreSamples.blankKey "scan.pdf"); [reflexivity |].
  intros k [= <-]. reflexivity.
Defined.

End HandlerFacts.

(** ** Properties of the page *)

Module HomeFacts.
Import Home.

(** *** Updates of the entries, entry by entry *)

Lemma foldl_map {A B} (g : B → A → A) (l : list B) (fs : list A) :
  foldl (λ fs x, map (g x) fs) fs l = map (λ f, foldl (λ f x, g x f) f l) fs.
Proof.
  revert fs. induction l as [| x l IH]; intros fs; cbn [foldl].
  - by rewrite map_id.
  - by rewrite IH, map_map.
Qed.

Lemma sameFile_spec (f g : FileWithStatus) :
  sameFile f g = true ↔ identity (file f) = identity (file g).
Proof. apply Nat.eqb_eq. Qed.

Lemma sameFile_false (f g : FileWithStatus) :
  sameFile f g = false ↔ identity (file f) ≠ identity (file g).
Proof. apply Nat.eqb_neq. Qed.

Lemma among_true (l : list FileWithStatus) (f : FileWithStatus) :
  among l f = true ↔ ∃ bf, bf ∈ l ∧ identity (file bf) = identity (file f).
Proof.
  unfold among. rewrite existsb_exists. split; intros (bf & Hin & Hid); exists bf.
  - split; [by apply list_elem_of_In | by apply sameFile_spec].
  - split; [by apply list_elem_of_In | by apply sameFile_spec].
Qed.

Lemma among_app (l1 l2 : list FileWithStatus) (f : FileWithStatus) :
  among (l1 ++ l2) f = among l1 f || among l2 f.
Proof. apply existsb_app. Qed.

Lemma identities_elem (l : list FileWithStatus) (f : FileWithStatus) :
  f ∈ l → identity (file f) ∈ identities l.
Proof. intros Hin. apply list_elem_of_fmap. by exists f. Qed.

(** Among entries whose files have distinct identities, the identity tells
    the entry. *)
Lemma identity_tells_entry (l : list FileWithStatus) (f g : FileWithStatus) :
  NoDup (identities l) → f ∈ l → g ∈ l →
  identity (file f) = identity (file g) → f = g.
Proof.
  induction l as [| x l IH]; intros Hnodup Hf Hg Hid; [by apply elem_of_nil in Hf |].
  cbn in Hnodup. apply NoDup_cons in Hnodup as [Hx Hnodup].
  apply elem_of_cons in Hf as [-> | Hf], Hg as [-> | Hg]; [done | | | by apply IH].
  - destruct Hx. rewrite Hid. by apply identities_elem.
  - destruct Hx. rewrite <- Hid. by apply identities_elem.
Qed.

Section Entrywise.
Context (g : FileWithStatus → FileWithStatus → FileWithStatus).
Hypothesis g_miss : ∀ bf f, sameFile f bf = false → g bf f = f.
Hypothesis g_file : ∀ bf f, file (g bf f) = file f.

Lemma fold_miss (l : list FileWithStatus) (f : FileWithStatus) :
  (∀ bf, bf ∈ l → identity (file bf) ≠ identity (file f)) →
  foldl (λ f bf, g bf f) f l = f.
Proof.
  induction l as [| x l IH]; intros Hmiss; [done |]. cbn [foldl].
  rewrite g_miss.
  - apply IH. intros bf Hbf. apply Hmiss. by right.
  - apply sameFile_false. intros Heq. by apply (Hmiss x); [left |].
Qed.

Lemma fold_hit (l : list FileWithStatus) (bf f : FileWithStatus) :
  NoDup (identities l) → bf ∈ l → identity (file bf) = identity (file f) →
  foldl (λ f x, g x f) f l = g bf f.
Proof.
  induction l as [| x l IH]; intros Hnodup Hbf Hid; [by apply elem_of_nil in Hbf |].
  cbn in Hnodup. apply NoDup_cons in Hnodup as [Hx Hnodup]. cbn [foldl].
  apply elem_of_cons in Hbf as [-> | Hbf].
  - apply fold_miss. intros y Hy Heq. apply Hx.
    rewrite g_file in Heq. rewrite Hid, <- Heq. by apply identities_elem.
  - rewrite g_miss; [by apply IH |].
    apply sameFile_false. intros Heq. apply Hx.
    rewrite <- Heq, <- Hid. by apply identities_elem.
Qed.
End Entrywise.

Lemma startE_miss (b : browser) (bf f : FileWithStatus) :
  sameFile f bf = false → startE b bf f = f.
Proof. intros H. unfold startE. by rewrite H. Qed.

Lemma startE_file (b : browser) (bf f : FileWithStatus) : file (startE b bf f) = file f.
Proof. unfold startE. by destruct (sameFile f bf). Qed.

Lemma finishE_miss (b : browser) (bf f : FileWithStatus) :
  sameFile f bf = false → finishE b bf f = f.
Proof. intros H. unfold finishE. by rewrite H. Qed.

Lemma finishE_file (b : browser) (bf f : FileWithStatus) : file (finishE b bf f) = file f.
Proof.
  unfold finishE. destruct (sameFile f bf); [| done].
  by destruct (convertFile b (file bf)).
Qed.

Lemma settled_file (b : browser) (f : FileWithStatus) : file (settled b f) = file f.
Proof. unfold settled. by destruct (convertFile b (file f)). Qed.

(** What a batch does to one entry: nothing when the entry is not of the
    batch, and otherwise what the request of its file comes to. *)
Lemma processBatch_entries (b : browser) (batch fs : list FileWithStatus) :
  settleOrder b batch ≡ₚ batch → NoDup (identities batch) →
  (∀ f bf, f ∈ fs → bf ∈ batch → identity (file bf) = identity (file f) → bf = f) →
  processBatch b batch fs = map (λ f, if among batch f then settled b f else f) fs.
Proof.
  intros Hperm Hnodup Hsame. unfold processBatch, markProcessing, start, finish.
  rewrite !(foldl_map (λ bf f, _ bf f)), !map_map.
  apply map_ext_in. intros f Hf%list_elem_of_In. unfold markE.
  destruct (among batch f) eqn:Hamong.
  - apply among_true in Hamong as (bf & Hbf & Hid).
    assert (bf = f) as -> by by apply Hsame.
    rewrite (fold_hit (startE b) (startE_miss b) (startE_file b) batch f) by done.
    rewrite (fold_hit (finishE b) (finishE_miss b) (finishE_file b) _ f).
    + unfold startE, finishE, settled, sameFile. cbn. rewrite Nat.eqb_refl. cbn.
      rewrite Nat.eqb_refl. by destruct (convertFile b (file f)).
    + unfold identities. by rewrite Hperm.
    + by rewrite Hperm.
    + by rewrite startE_file.
  - assert (Hmiss : ∀ bf, bf ∈ batch → identity (file bf) ≠ identity (file f)).
    { intros bf Hbf Hid. assert (among batch f = true); [| congruence].
      apply among_true. by exists bf. }
    rewrite (fold_miss (startE b) (startE_miss b)) by done.
    apply (fold_miss (finishE b) (finishE_miss b)).
    intros bf Hbf. apply Hmiss. by rewrite <- Hperm.
Qed.

(** *** The loop over the batches *)

Lemma among_identities (l : list FileWithStatus) (f : FileWithStatus) :
  among l f = true ↔ identity (file f) ∈ identities l.
Proof.
  rewrite among_true. unfold identities. rewrite list_elem_of_fmap. split.
  - intros (bf & Hbf & Hid). by exists bf.
  - intros (bf & Hid & Hbf). by exists bf.
Qed.

Lemma among_same_file (l : list FileWithStatus) (f g : FileWithStatus) :
  file f = file g → among l f = among l g.
Proof.
  intros Hfile. apply eq_true_iff_eq. rewrite !among_identities. by rewrite Hfile.
Qed.

Lemma among_pending (fs : list FileWithStatus) (f : FileWithStatus) :
  NoDup (identities fs) → f ∈ fs →
  among (filter isPending fs) f = true ↔ isPending f.
Proof.
  intros Hnodup Hf. rewrite among_true. split.
  - intros (bf & [Hpending Hbf]%list_elem_of_filter & Hid).
    by rewrite <- (identity_tells_entry fs bf f).
  - intros Hpending. exists f. split; [| done]. by apply list_elem_of_filter.
Qed.

Lemma identities_sublist (l k : list FileWithStatus) :
  sublist l k → NoDup (identities k) → NoDup (identities l).
Proof. intros Hsub Hnodup. eapply sublist_NoDup; [exact Hnodup |]. unfold identities. by apply fmap_sublist. Qed.

Section Loop.
Context (b : browser) (files0 : list FileWithStatus) (size : nat).
Hypothesis settles : ∀ batch, settleOrder b batch ≡ₚ batch.
Hypothesis distinct : NoDup (identities files0).
Hypothesis positive : 0 < size.

Lemma pending_distinct : NoDup (identities (filter isPending files0)).
Proof. apply (identities_sublist _ files0); [apply sublist_filter | done]. Qed.

Lemma batch_apart (i : nat) (f : FileWithStatus) :
  among (take i (filter isPending files0)) f = true →
  among (Convert.slice (filter isPending files0) i (i + size)) f = false.
Proof.
  intros Hdone. apply not_true_iff_false. intros Hbatch.
  apply among_identities in Hdone, Hbatch.
  pose proof pending_distinct as Hnodup.
  rewrite <- (take_drop i (filter isPending files0)) in Hnodup.
  unfold identities in Hnodup.
  rewrite map_app in Hnodup. apply NoDup_app in Hnodup as (_ & Hapart & _).
  apply (Hapart _ Hdone). unfold Convert.slice, identities in Hbatch.
  eapply list_elem_of_fmap in Hbatch as (bf & Hid & Hbf).
  apply list_elem_of_fmap. exists bf. split; [done |].
  eapply sublist_subseteq; [apply sublist_take | done].
Qed.

Lemma after_batch (i : nat) :
  processBatch b (Convert.slice (filter isPending files0) i (i + size)) (afterFirst b files0 i)
  = afterFirst b files0 (i + size).
Proof.
  rewrite processBatch_entries.
  - unfold afterFirst. rewrite map_map. apply map_ext. intros f.
    rewrite <- (take_take_drop (filter isPending files0) i size), among_app.
    replace (take size (drop i (filter isPending files0)))
      with (Convert.slice (filter isPending files0) i (i + size))
      by (unfold Convert.slice; f_equal; lia).
    destruct (among (take i (filter isPending files0)) f) eqn:Hdone; [| done].
    rewrite (among_same_file _ (settled b f) f) by apply settled_file.
    by rewrite (batch_apart i f Hdone).
  - apply settles.
  - apply (identities_sublist _ (filter isPending files0)); [| apply pending_distinct].
    unfold Convert.slice. etrans; [apply sublist_take | apply sublist_drop].
  - intros f bf Hf Hbf Hid. unfold afterFirst in Hf.
    apply list_elem_of_fmap in Hf as (f0 & -> & Hf0).
    assert (Hpending : bf ∈ (filter isPending files0)).
    { eapply sublist_subseteq; [| exact Hbf]. unfold Convert.slice.
      etrans; [apply sublist_take | apply sublist_drop]. }
    assert (Hbatch : among (Convert.slice (filter isPending files0) i (i + size)) f0 = true).
    { apply among_true. exists bf. split; [done |]. rewrite Hid.
      by destruct (among (take i (filter isPending files0)) f0); rewrite ?settled_file. }
    destruct (among (take i (filter isPending files0)) f0) eqn:Hdone.
    { rewrite (batch_apart i f0 Hdone) in Hbatch. discriminate. }
    apply (identity_tells_entry files0); [done | | done | done].
    by apply list_elem_of_filter in Hpending as [_ ?].
Qed.

Lemma batchLoop_exit (fuel i n : nat) (fs : list FileWithStatus) :
  length (filter isPending files0) ≤ i →
  batchLoop b (filter isPending files0) size fuel i n fs = Some (fs, n, []).
Proof.
  intros Hge. apply Nat.ltb_ge in Hge. by destruct fuel; cbn [batchLoop]; rewrite Hge.
Qed.

(** The loop comes to its end, with every pending file processed, and its
    batches are the consecutive runs of [size] pending files. *)
Lemma batchLoop_spec (fuel i n : nat) :
  length (filter isPending files0) ≤ i + fuel →
  ∃ batches,
    batchLoop b (filter isPending files0) size fuel i n (afterFirst b files0 i)
    = Some (afterFirst b files0 (length (filter isPending files0)),
            n + (length (filter isPending files0) - i), batches)
    ∧ concat batches = drop i (filter isPending files0)
    ∧ ∀ k bt, batches !! k = Some bt →
        0 < length bt ≤ size ∧ (S k < length batches → length bt = size).
Proof.
  revert i n. induction fuel as [| fuel IH]; intros i n Hfuel;
    destruct (Nat.le_gt_cases (length (filter isPending files0)) i) as [Hge | Hlt];
    [| lia | |].
  1, 2: exists []; rewrite batchLoop_exit by done; unfold afterFirst;
    rewrite !firstn_all2 by lia; rewrite drop_ge by lia;
    replace (length (filter isPending files0) - i) with 0 by lia; rewrite Nat.add_0_r;
    (split; [done | split; [done |]]); intros k bt Hk; by rewrite lookup_nil in Hk.
  cbn [batchLoop]. rewrite (proj2 (Nat.ltb_lt _ _) Hlt). rewrite after_batch.
  destruct (IH (i + size) (n + length (Convert.slice (filter isPending files0) i (i + size))))
    as (batches & -> & Hconcat & Hsizes); [lia |].
  assert (Hlen : length (Convert.slice (filter isPending files0) i (i + size))
                 = Nat.min size (length (filter isPending files0) - i)).
  { unfold Convert.slice. rewrite length_take, length_drop. lia. }
  exists (Convert.slice (filter isPending files0) i (i + size) :: batches).
  split; [| split].
  - by replace (n + length (Convert.slice (filter isPending files0) i (i + size))
                + (length (filter isPending files0) - (i + size)))
      with (n + (length (filter isPending files0) - i)) by (rewrite Hlen; lia).
  - cbn [concat]. rewrite Hconcat. unfold Convert.slice.
    replace (i + size - i) with size by lia.
    rewrite <- drop_drop. apply take_drop.
  - intros [| k] bt Hk; cbn in Hk.
    + injection Hk as <-. rewrite Hlen. split; [lia |].
      intros Hmore. destruct batches as [| bt' batches']; [cbn in Hmore; lia |].
      destruct (Hsizes 0 bt' eq_refl) as [Hpos _].
      assert (Hrest : length (drop (i + size) (filter isPending files0)) ≠ 0).
      { rewrite <- Hconcat. cbn [concat]. rewrite length_app. lia. }
      rewrite length_drop in Hrest. lia.
    + destruct (Hsizes k bt Hk) as [Hbounds Hfull]. split; [done |].
      intros Hmore. apply Hfull. cbn in Hmore. lia.
Qed.

Lemma after_all :
  afterFirst b files0 (length (filter isPending files0))
  = map (λ f, if decide (isPending f) then settled b f else f) files0.
Proof.
  unfold afterFirst. rewrite firstn_all. apply map_ext_in. intros f Hf%list_elem_of_In.
  pose proof (among_pending files0 f distinct Hf) as Hiff.
  destruct (decide (isPending f)) as [Hp | Hp].
  - by rewrite (proj2 Hiff Hp).
  - destruct (among (filter isPending files0) f); [| done]. by destruct Hp; apply Hiff.
Qed.

Lemma after_start : afterFirst b files0 0 = files0.
Proof. unfold afterFirst. cbn. apply map_id. Qed.

End Loop.

(** What a run of [processFiles] over a non-empty list comes to. *)
Lemma processFiles_spec (b : browser) (s : state) :
  files s ≠ [] → 0 < batchSize s → NoDup (identities (files s)) →
  (∀ batch, settleOrder b batch ≡ₚ batch) →
  ∃ batches,
    processFiles b s
    = Some ({| files := map (λ f, if decide (isPending f) then settled b f else f) (files s);
               batchSize := batchSize s; isProcessing := false; error := None;
               success := Some ("Processed " +:+ pretty (length (filter isPending (files s)))
                                +:+ " file(s) successfully") |}, batches)
    ∧ concat batches = filter isPending (files s)
    ∧ ∀ k bt, batches !! k = Some bt →
        0 < length bt ≤ batchSize s ∧ (S k < length batches → length bt = batchSize s).
Proof.
  intros Hfiles Hsize Hnodup Hsettle. unfold processFiles.
  destruct (Nat.eqb_spec (length (files s)) 0) as [Hnil | _].
  { by apply length_zero_iff_nil in Hnil. }
  destruct (batchLoop_spec b (files s) (batchSize s) Hsettle Hnodup Hsize
              (length (filter isPending (files s))) 0 0)
    as (batches & Hloop & Hconcat & Hsizes); [lia |].
  rewrite after_start, after_all in Hloop by done. rewrite Hloop.
  exists batches. rewrite Nat.sub_0_r. by cbn.
Qed.

(** X22. A run of [processFiles] over a list with distinct files comes to
    its end; every entry that was pending is then completed, with the URL
    of its document, or in error, with the message of the failure; the
    other entries are as they were; and the message of success counts
    every file that was pending, whether its conversion failed or not. *)
Theorem pending_files_all_settled (b : browser) (s : state) :
  files s ≠ [] → 0 < batchSize s → NoDup (identities (files s)) →
  (∀ batch, settleOrder b batch ≡ₚ batch) →
  ∃ batches,
    processFiles b s
    = Some ({| files := map (λ f, if decide (isPending f) then settled b f else f) (files s);
               batchSize := batchSize s; isProcessing := false; error := None;
               success := Some ("Processed " +:+ pretty (length (filter isPending (files s)))
                                +:+ " file(s) successfully") |}, batches).
Proof.
  intros Hfiles Hsize Hnodup Hsettle.
  destruct (processFiles_spec b s Hfiles Hsize Hnodup Hsettle) as (batches & Hrun & _).
  by exists batches.
Qed.

Lemma selection_distinct : NoDup (identities (files HomeSamples.selection)).
Proof.
  change (NoDup [1; 3; 4]).
  repeat (apply NoDup_cons; split; [rewrite ?elem_of_cons, elem_of_nil; lia |]).
  apply NoDup_nil_2.
Qed.

Lemma pending_files_all_settled_witness :
  ∃ batches,
    processFiles HomeSamples.sampleBrowser HomeSamples.selection
    = Some ({| files :=
                 [ {| file := HomeSamples.scanA; status := Completed;
                      downloadUrl := Some "blob:a"; entryError := None;
                      fileId := Some "id_a.pdf" |};
                   {| file := HomeSamples.scanB; status := Error; downloadUrl := None;
                      entryError := Some "No file provided"; fileId := Some "id_b.pdf" |};
                   {| file := HomeSamples.scanC; status := Error; downloadUrl := None;
                      entryError := Some "Unknown error"; fileId := Some "id_c.pdf" |} ];
               batchSize := 10; isProcessing := false; error := None;
               success := Some "Processed 3 file(s) successfully" |}, batches).
Proof.
  apply (pending_files_all_settled HomeSamples.sampleBrowser HomeSamples.selection).
  - discriminate.
  - change (0 < 10). lia.
  - exact selection_distinct.
  - intros batch. apply reverse_Permutation.
Defined.

(** X23. The batches of a run are the pending files, in their order, cut
    into consecutive runs: every batch but the last one has [batchSize]
    files, and the last one has between one and [batchSize] files. *)
Theorem batches_cut_the_pending_files (b : browser) (s s' : state)
    (batches : list (list FileWithStatus)) :
  files s ≠ [] → 0 < batchSize s → NoDup (identities (files s)) →
  (∀ batch, settleOrder b batch ≡ₚ batch) →
  processFiles b s = Some (s', batches) →
  concat batches = filter isPending (files s)
  ∧ ∀ k bt, batches !! k = Some bt →
      0 < length bt ≤ batchSize s ∧ (S k < length batches → length bt = batchSize s).
Proof.
  intros Hfiles Hsize Hnodup Hsettle Hrun.
  destruct (processFiles_spec b s Hfiles Hsize Hnodup Hsettle)
    as (batches' & Hrun' & Hconcat & Hsizes).
  rewrite Hrun in Hrun'. by injection Hrun' as _ <-.
Qed.

Lemma batches_cut_the_pending_files_witness :
  concat [map newEntry [HomeSamples.scanA; HomeSamples.scanB]; map newEntry [HomeSamples.scanC]]
  = filter isPending (files HomeSamples.selectionByTwo)
  ∧ ∀ k bt,
      [map newEntry [HomeSamples.scanA; HomeSamples.scanB]; map newEntry [HomeSamples.scanC]]
        !! k = Some bt →
      0 < length bt ≤ 2 ∧ (S k < 2 → length bt = 2).
Proof.
  destruct (processFiles HomeSamples.sampleBrowser HomeSamples.selectionByTwo)
    as [[s' batches] |] eqn:Hrun; [| vm_compute in Hrun; discriminate].
  assert (Hbatches : batches = [map newEntry [HomeSamples.scanA; HomeSamples.scanB];
                                map newEntry [HomeSamples.scanC]]).
  { vm_compute in Hrun. by injection Hrun as _ <-. }
  subst batches.
  apply (batches_cut_the_pending_files HomeSamples.sampleBrowser HomeSamples.selectionByTwo
           s' [map newEntry [HomeSamples.scanA; HomeSamples.scanB];
               map newEntry [HomeSamples.scanC]]).
  - discriminate.
  - change (0 < 2). lia.
  - exact selection_distinct.
  - intros batch. apply reverse_Permutation.
  - exact Hrun.
Defined.

(** *** The states of the page *)

Lemma consistent_newEntry (f : File) : consistent (newEntry f).
Proof. by cbn. Qed.

Lemma consistent_settled (b : browser) (f : FileWithStatus) :
  isPending f → consistent f → consistent (settled b f).
Proof.
  unfold isPending, consistent, settled. intros -> (Hurl & Herr & _).
  destruct (convertFile b (file f)); cbn; rewrite ?Hurl, ?Herr; by eauto.
Qed.

Lemma identities_settled (b : browser) (fs : list FileWithStatus) :
  identities (map (λ f, if decide (isPending f) then settled b f else f) fs) = identities fs.
Proof.
  unfold identities. rewrite map_map. apply map_ext. intros f.
  by destruct (decide (isPending f)); rewrite ?settled_file.
Qed.

(** X24. In every state the page reaches, the files of the list are
    distinct PDF files, no entry is left in the status of processing, a
    pending entry has no URL, no message and no file id, a completed entry
    has a URL and no message, an entry in error has a message and no URL,
    and the batch size is 10, 20 or 30. *)
Theorem page_invariant (s : state) :
  reachable s →
  NoDup (identities (files s))
  ∧ Forall (λ f, isPdf (file f)) (files s)
  ∧ Forall consistent (files s)
  ∧ batchSize s ∈ [10; 20; 30].
Proof.
  induction 1 as [| s selected _ (Hnodup & Hpdf & Hcons & Hsize) Hnew
                  | s _ (Hnodup & Hpdf & Hcons & Hsize)
                  | s n _ (Hnodup & Hpdf & Hcons & Hsize) Hn
                  | b s s' batches _ (Hnodup & Hpdf & Hcons & Hsize) Hsettle Hrun].
  - cbn. repeat split; [apply NoDup_nil_2 | done | done | by left].
  - unfold handleFileSelect.
    destruct (length (filter isPdf selected) =? 0); cbn [files batchSize]; [done |].
    repeat split; [| | | done].
    + eapply sublist_NoDup; [exact Hnew |]. unfold identities.
      rewrite map_app, map_map. apply sublist_app; [done |]. cbn.
      apply fmap_sublist, sublist_filter.
    + apply Forall_app. split; [done |]. apply Forall_forall.
      intros f (f0 & -> & Hf0)%list_elem_of_fmap.
      by apply list_elem_of_filter in Hf0 as [? _].
    + apply Forall_app. split; [done |]. apply Forall_forall.
      intros f (f0 & -> & _)%list_elem_of_fmap. apply consistent_newEntry.
  - cbn. repeat split; [apply NoDup_nil_2 | done | done | done].
  - by cbn.
  - destruct (decide (files s = [])) as [Hnil | Hfiles].
    { unfold processFiles in Hrun. rewrite Hnil in Hrun. cbn in Hrun.
      injection Hrun as <- _. cbn.
      repeat split; [apply NoDup_nil_2 | done | done | done]. }
    assert (Hpos : 0 < batchSize s).
    { rewrite !elem_of_cons, elem_of_nil in Hsize. lia. }
    destruct (processFiles_spec b s Hfiles Hpos Hnodup Hsettle) as (batches' & Hrun' & _).
    rewrite Hrun in Hrun'. injection Hrun' as -> _. cbn [files batchSize].
    repeat split; [| | | done].
    + by rewrite identities_settled.
    + apply Forall_fmap. eapply Forall_impl; [exact Hpdf |]. intros f Hf. cbn.
      by destruct (decide (isPending f)); rewrite ?settled_file.
    + apply Forall_fmap. eapply Forall_impl; [exact Hcons |]. intros f Hf. cbn.
      destruct (decide (isPending f)); [by apply consistent_settled | done].
Qed.

Lemma page_invariant_witness :
  NoDup (identities (files HomeSamples.selection))
  ∧ Forall (λ f, isPdf (file f)) (files HomeSamples.selection)
  ∧ Forall consistent (files HomeSamples.selection)
  ∧ batchSize HomeSamples.selection ∈ [10; 20; 30].
Proof.
  apply (page_invariant HomeSamples.selection).
  apply reach_select; [apply reach_initial |]. change (NoDup [1; 2; 3; 4]).
  repeat (apply NoDup_cons; split; [rewrite ?elem_of_cons, elem_of_nil; lia |]).
  apply NoDup_nil_2.
Defined.

End HomeFacts.
